(** * Float16bits: the f16 / bf16 codec of the MLIR execution engine

    A shallow embedding of [mlir/lib/ExecutionEngine/Float16bits.cpp].

    A [float] is carried as the raw 32-bit pattern the [Float32Bits] union
    exposes through its [u] member; the two places where the source does
    arithmetic through the [f] member go through the IEEE-754 operations of
    [SpecFloat] at precision 24 and maximal exponent 128 (round to nearest,
    ties to even).  [uint16_t] and [uint32_t] are integers of [Z] with the
    wrap-around of every assignment written out.

    The image selection of [sycl/source/detail/kernel_bundle_impl.cpp] is
    embedded in [KernelBundle], as a loop over a list with the function's
    local variables as its state. *)

From Stdlib Require Import ZArith Lia Bool List.
From Stdlib Require Import Floats.SpecFloat.

Local Open Scope Z_scope.

(** ** Fixed-width unsigned integers *)

Module Bits.

(** [static_cast<uint16_t>] and the value stored in a [uint16_t]: the low
    16 bits. *)
Definition u16 (z : Z) : Z := Z.land z 0xffff.

(** Arithmetic in [uint32_t] wraps modulo 2^32: the low 32 bits. *)
Definition u32 (z : Z) : Z := Z.land z 0xffffffff.

Definition is_u16 (z : Z) : Prop := 0 <= z < 2 ^ 16.
Definition is_u32 (z : Z) : Prop := 0 <= z < 2 ^ 32.

(** Enumeration of all numbers [base * 2^k + j] with [0 <= j < 2^k];
    used to decide properties of all 16-bit patterns by evaluation. *)
Fixpoint all_bits (k : nat) (base : Z) (P : Z -> bool) : bool :=
  match k with
  | O => P base
  | S k' => all_bits k' (2 * base) P && all_bits k' (2 * base + 1) P
  end.

End Bits.

Import Bits.

(** ** IEEE-754 formats on raw bit patterns *)

Module IEEE.

Section Format.
(** [mw] mantissa bits, [ew] exponent bits. *)
Variables mw ew : Z.

Definition prec : Z := mw + 1.
Definition emax : Z := 2 ^ (ew - 1).
Definition bias : Z := emax - 1.

Definition sign_of (x : Z) : bool := Z.testbit x (mw + ew).
Definition expo_of (x : Z) : Z := Z.land (Z.shiftr x mw) (Z.ones ew).
Definition mant_of (x : Z) : Z := Z.land x (Z.ones mw).

(** The value denoted by a sign, an exponent field and a mantissa
    field. *)
Definition decode (s : bool) (e m : Z) : spec_float :=
  if e =? 0 then
    match m with
    | Zpos p => S754_finite s p (1 - bias - mw)
    | _ => S754_zero s
    end
  else if e =? Z.ones ew then
    if m =? 0 then S754_infinity s else S754_nan
  else
    match m + 2 ^ mw with
    | Zpos p => S754_finite s p (e - bias - mw)
    | _ => S754_nan
    end.

(** The value denoted by a bit pattern. *)
Definition of_bits (x : Z) : spec_float :=
  decode (sign_of x) (expo_of x) (mant_of x).

Definition sign_bit (s : bool) : Z :=
  if s then Z.shiftl 1 (mw + ew) else 0.

(** The bit pattern of a value; a NaN produced by arithmetic is the
    default quiet NaN (exponent all ones, top mantissa bit set). *)
Definition to_bits (f : spec_float) : Z :=
  match f with
  | S754_zero s => sign_bit s
  | S754_infinity s => sign_bit s + Z.shiftl (Z.ones ew) mw
  | S754_nan => Z.shiftl (Z.ones ew) mw + Z.shiftl 1 (mw - 1)
  | S754_finite s m e =>
      if Zpos m <? 2 ^ mw then sign_bit s + Zpos m
      else sign_bit s + Z.shiftl (e + bias + mw) mw + (Zpos m - 2 ^ mw)
  end.
End Format.

End IEEE.

(** ** binary32: the [f] member of [Float32Bits] *)

Module F32.

Definition prec : Z := Eval cbv in IEEE.prec 23.
Definition emax : Z := Eval cbv in IEEE.emax 8.

Definition of_bits : Z -> spec_float := IEEE.of_bits 23 8.
Definition to_bits : spec_float -> Z := IEEE.to_bits 23 8.

(** [a.f + b.f] and [a.f - b.f] on the patterns [a.u], [b.u]. *)
Definition add (a b : Z) : Z := to_bits (SFadd prec emax (of_bits a) (of_bits b)).
Definition sub (a b : Z) : Z := to_bits (SFsub prec emax (of_bits a) (of_bits b)).

(** [std::isnan] and [std::signbit]. *)
Definition isnan (x : Z) : bool := 0x7f800000 <? Z.land x 0x7fffffff.
Definition signbit (x : Z) : bool := Z.testbit x 31.

(** The pattern of the float literal [m * 2^e], rounded to nearest. *)
Definition lit (m e : Z) : Z := to_bits (binary_normalize prec emax m e false).

End F32.

(** ** binary64 and the narrowing conversion [static_cast<float>(double)] *)

Module F64.

Definition of_bits : Z -> spec_float := IEEE.of_bits 52 11.

Definition isnan (d : Z) : bool := 0x7ff0000000000000 <? Z.land d 0x7fffffffffffffff.
Definition signbit (d : Z) : bool := Z.testbit d 63.

(** Narrowing to binary32 rounds to nearest, ties to even.  A NaN stays a
    NaN of the same sign; it is quieted and keeps the top 22 payload bits,
    as the conversion instructions of the supported hosts do. *)
Definition to_float (d : Z) : Z :=
  if isnan d then
    IEEE.sign_bit 23 8 (signbit d) + 0x7fc00000
      + Z.land (Z.shiftr d 29) 0x3fffff
  else
    match of_bits d with
    | S754_finite s m e => F32.to_bits (binary_round F32.prec F32.emax s m e)
    | f => F32.to_bits f
    end.

End F64.

(** ** The codec *)

Definition kF32MantiBits : Z := 23.
Definition kF32HalfMantiBitDiff : Z := 13.
Definition kF32HalfBitDiff : Z := 16.
Definition kF32Magic : Z := Z.shiftl 113 kF32MantiBits.
Definition kF32HalfExpAdjust : Z := Z.shiftl (127 - 15) kF32MantiBits.

(** [uint16_t float2half(float floatValue)] *)
Definition float2half (floatValue : Z) : Z :=
  let inf := Z.shiftl 255 kF32MantiBits in
  let f16max := Z.shiftl (127 + 16) kF32MantiBits in
  let denormMagic := Z.shiftl ((127 - 15) + (kF32MantiBits - 10) + 1) kF32MantiBits in
  let signMask := 0x80000000 in
  let sign := Z.land floatValue signMask in
  let fu := Z.lxor floatValue sign in
  let halfValue :=
    if f16max <=? fu then
      let halfQnan := 0x7e00 in
      let halfInf := 0x7c00 in
      u16 (if inf <? fu then halfQnan else halfInf)
    else if fu <? kF32Magic then
      let fu := F32.add fu denormMagic in
      u16 (u32 (fu - denormMagic))
    else
      let mantOdd := Z.land (Z.shiftr fu kF32HalfMantiBitDiff) 1 in
      let fu := u32 (fu + 0xc8000fff) in
      let fu := u32 (fu + mantOdd) in
      u16 (Z.shiftr fu kF32HalfMantiBitDiff)
  in
  Z.lor halfValue (u16 (Z.shiftr sign kF32HalfBitDiff)).

(** [float half2float(uint16_t halfValue)] *)
Definition half2float (halfValue : Z) : Z :=
  let shiftedExp := Z.shiftl 0x7c00 kF32HalfMantiBitDiff in
  let fu := u32 (Z.shiftl (Z.land halfValue 0x7fff) kF32HalfMantiBitDiff) in
  let exp := Z.land shiftedExp fu in
  let fu := u32 (fu + kF32HalfExpAdjust) in
  let fu :=
    if exp =? shiftedExp then u32 (fu + kF32HalfExpAdjust)
    else if exp =? 0 then
      let fu := u32 (fu + Z.shiftl 1 kF32MantiBits) in
      F32.sub fu kF32Magic
    else fu
  in
  Z.lor fu (u32 (Z.shiftl (Z.land halfValue 0x8000) kF32HalfBitDiff)).

Definition kF32BfMantiBitDiff : Z := 16.

(** [uint16_t float2bfloat(float floatValue)] *)
Definition float2bfloat (floatValue : Z) : Z :=
  if F32.isnan floatValue then
    if F32.signbit floatValue then 0xFFC0 else 0x7FC0
  else
    let lsb := Z.land (Z.shiftr floatValue kF32BfMantiBitDiff) 1 in
    let roundingBias := 0x7fff + lsb in
    let fu := u32 (floatValue + roundingBias) in
    u16 (Z.shiftr fu kF32BfMantiBitDiff).

(** [float bfloat2float(uint16_t bfloatBits)] *)
Definition bfloat2float (bfloatBits : Z) : Z :=
  u32 (Z.shiftl bfloatBits kF32BfMantiBitDiff).

(** ** The ABI shims *)

(** [BF16ABIType] is [float] on x86-64 and [uint16_t] elsewhere. *)
Inductive Target : Set := X86_64 | OtherTarget.

Definition BF16ABIType_width (t : Target) : Z :=
  match t with X86_64 => 32 | OtherTarget => 16 end.

(** [std::memcpy(&ret, &bf, sizeof(bf))] on a little-endian host: the low
    two bytes of [ret] are replaced by [bf]. *)
Definition memcpy_u16 (width ret bf : Z) : Z :=
  Z.lor (Z.land ret (Z.ones width - Z.ones 16)) bf.

(** [BF16ABIType __truncsfbf2(float f)], as the bits of the carrier. *)
Definition truncsfbf2 (t : Target) (f : Z) : Z :=
  let bf := float2bfloat f in
  let ret := 0 in
  memcpy_u16 (BF16ABIType_width t) ret bf.

(** [BF16ABIType __truncdfbf2(double d)] *)
Definition truncdfbf2 (t : Target) (d : Z) : Z :=
  truncsfbf2 t (F64.to_float d).

(** ** Vocabulary of the specification *)

(** NaN patterns of the two 16-bit formats: exponent field all ones and a
    mantissa that is not zero. *)
Definition half_isnan (p : Z) : bool := 0x7c00 <? Z.land p 0x7fff.
Definition bfloat_isnan (p : Z) : bool := 0x7f80 <? Z.land p 0x7fff.

(** Finite f16 patterns: exponent field not all ones. *)
Definition half_isfinite (p : Z) : bool := Z.land p 0x7fff <? 0x7c00.

(** Finite bf16 patterns: exponent field not all ones. *)
Definition bfloat_isfinite (p : Z) : bool := Z.land p 0x7fff <? 0x7f80.

(** The magnitude and the sign of a binary32 pattern, and a sign moved to
    bit 15 of a 16-bit pattern. *)
Definition magnitude (x : Z) : Z := Z.land x 0x7fffffff.
Definition sign16 (x : Z) : Z := Z.shiftl (Z.b2z (F32.signbit x)) 15.

(** The magnitude of a sign-less pattern with [mw] mantissa bits, as an
    integer multiple of the smallest subnormal of its format.  An exponent
    field of all ones is read as one more binade, so that the pattern of
    Infinity stands for the power of two just out of range. *)
Definition scaled (mw x : Z) : Z :=
  let e := Z.shiftr x mw in
  let m := Z.land x (Z.ones mw) in
  if e =? 0 then m else Z.shiftl (2 ^ mw + m) (e - 1).

(** The distance from the magnitude of [x] to that of the next pattern,
    in the same unit. *)
Definition spacing (mw x : Z) : Z :=
  let e := Z.shiftr x mw in
  if e =? 0 then 1 else 2 ^ (e - 1).

(** Of two adjacent 16-bit magnitudes [h] and [h + 1], the even one. *)
Definition nearest_even (h : Z) : Z := if Z.even h then h else h + 1.

(** The binary32 pattern [x] has a magnitude exactly halfway between the
    f16 magnitudes [h] and [h + 1] (smallest subnormals: 2^-149 for
    binary32, 2^-24 for f16). *)
Definition halfway_half (x h : Z) : Prop :=
  2 * scaled 23 (magnitude x) = 2 ^ 125 * (scaled 10 h + scaled 10 (h + 1)).

(** The same between the bf16 magnitudes [h] and [h + 1] (smallest
    subnormal of bf16: 2^-133). *)
Definition halfway_bfloat (x h : Z) : Prop :=
  2 * scaled 23 (magnitude x) = 2 ^ 16 * (scaled 7 h + scaled 7 (h + 1)).

(** The magnitude of the binary32 pattern [x] is at least halfway from the
    largest finite bf16 magnitude [0x7F7F] to the power of two above it, so
    that rounding to nearest, ties to even, leaves the finite range. *)
Definition bfloat_overflows (x : Z) : Prop :=
  scaled 23 0x7F7F0000 + scaled 23 0x7F800000 <= 2 * scaled 23 (magnitude x).

(** The binary32 pattern halfway between the f16 magnitudes [h], [h + 1]. *)
Definition half_tie (h : Z) : Z :=
  if h <? 0x400 then F32.lit (2 * h + 1) (-25)
  else Z.shiftl h 13 + 0x38001000.

(** The same for bf16. *)
Definition bfloat_tie (h : Z) : Z := Z.shiftl h 16 + 0x8000.

(** What is decided, by evaluation, of the halfway pattern above each of
    the finite f16 magnitudes. *)
Definition half_tie_check (h : Z) : bool :=
  if h <? 0x7c00 then
    (0 <=? half_tie h)
    && (2 * scaled 23 (half_tie h)
        =? Z.shiftl (scaled 10 h + scaled 10 (h + 1)) 125)
    && (float2half (half_tie h) =? nearest_even h)
    && (float2half (half_tie h + 2 ^ 31) =? nearest_even h + 0x8000)
  else true.

(** What is decided, by evaluation, of the decoding of each finite f16
    magnitude: [half2float] yields the binary32 pattern of the same
    magnitude (2^-24 is 2^125 times 2^-149). *)
Definition half_value_check (h : Z) : bool :=
  if h <? 0x7c00 then scaled 23 (half2float h) =? Z.shiftl (scaled 10 h) 125
  else true.

(** Splitting a conjunction of checks into its parts. *)
Ltac split_checks H :=
  repeat match type of H with
         | (_ && _)%bool = true =>
             let H' := fresh "C" in
             apply andb_true_iff in H as [H H']
         end.

(** A single correctly rounded conversion of a finite double to bf16
    (precision 8, same exponent range as binary32), for comparison with the
    two roundings of [truncdfbf2]. *)
Definition double2bfloat_direct (d : Z) : Z :=
  match F64.of_bits d with
  | S754_finite s m e => IEEE.to_bits 7 8 (binary_round 8 128 s m e)
  | f => IEEE.to_bits 7 8 f
  end.

(** The float literals of the concrete cases. *)
Definition f32_zero : Z := F32.lit 0 0.
Definition f32_neg_zero : Z := F32.to_bits (SFopp (F32.of_bits f32_zero)).
Definition f32_one : Z := F32.lit 1 0.
Definition f32_65520 : Z := F32.lit 65520 0.
Definition f32_70000 : Z := F32.lit 70000 0.

(** ** Rounding, as the encoders do it *)

(** Division of [v] by [2^k], rounded to the nearest integer, a tie to the
    even one. *)
Definition rne_shift (k v : Z) : Z :=
  let q := Z.shiftr v k in
  let r := Z.land v (Z.ones k) in
  let half := Z.shiftl 1 (k - 1) in
  if r <? half then q else if half <? r then q + 1 else nearest_even q.

(** The f16 magnitude [float2half] gives for a binary32 magnitude pattern
    [fu], branch by branch: Infinity or the quiet NaN from
    [(127 + 16) << 23] on; below [113 << 23] the magnitude counted in units
    of 2^-24 and rounded; in between the pattern rebased by [112 << 23],
    divided by 2^13 and rounded. *)
Definition half_round (fu : Z) : Z :=
  if 0x47800000 <=? fu then (if 0x7f800000 <? fu then 0x7e00 else 0x7c00)
  else if fu <? 0x38800000 then rne_shift 125 (scaled 23 fu)
  else rne_shift 13 (fu - 0x38000000).

(** The magnitude of a binary64 pattern. *)
Definition magnitude64 (d : Z) : Z := Z.land d 0x7fffffffffffffff.

(** The binary32 magnitude nearest to a binary64 magnitude pattern [m],
    ties to even: Infinity from 2^128 on; below 2^-126 the magnitude
    counted in units of 2^-149 and rounded (2^-149 is 2^925 times the
    smallest binary64 subnormal); in between the pattern rebased by
    [896 << 52], divided by 2^29 and rounded. *)
Definition narrow_round (m : Z) : Z :=
  if 0x47F0000000000000 <=? m then 0x7f800000
  else if m <? 0x3810000000000000 then rne_shift 925 (scaled 52 m)
  else rne_shift 29 (m - 0x3800000000000000).

(** What is decided, by evaluation, of [half2float] on each 16-bit
    pattern [p]: the result is a 32-bit pattern with the sign of [p]; it is
    a NaN exactly when [p] is; a finite [p] keeps its magnitude; an exponent
    field of all ones becomes all ones with the mantissa moved up by 13
    bits; [float2half] takes the result back to [p], or to the quiet NaN of
    the same sign; and the next pattern decodes to a larger pattern. *)
Definition half2float_check (p : Z) : bool :=
  let r := half2float p in
  let h := Z.land p 0x7fff in
  (0 <=? r) && (r <? 2 ^ 32)
  && Bool.eqb (F32.signbit r) (Z.testbit p 15)
  && Bool.eqb (F32.isnan r) (half_isnan p)
  && (if half_isfinite p
      then scaled 23 (magnitude r) =? Z.shiftl (scaled 10 h) 125
      else magnitude r =? 0x7f800000 + Z.shiftl (Z.land p 0x3ff) 13)
  && (float2half r =? if half_isnan p then Z.lor 0x7e00 (Z.land p 0x8000) else p)
  && ((p =? 0xffff) || (r <? half2float (p + 1))).

(** ** Image selection of a kernel bundle

    [kernel_bundle_impl::select_image_for_kernel] of
    [sycl/source/detail/kernel_bundle_impl.cpp].  The members of a device
    image that the function reads are fields of a record; a shared pointer
    to an image is the image or [None] for [nullptr]. *)

Module KernelBundle.
Import ListNotations.

Definition kernel_id : Set := nat.

Record device_image : Set := {
  has_kernel : kernel_id -> bool;
  is_any_specialization_constant_set : bool;
  specialization_constants_replaced_with_default : bool;
  all_specialization_constant_native : bool
}.

Definition ImageImpl : Set := option device_image.

(** The local variables of the function. *)
Record selection : Set := {
  SelectedImage : ImageImpl;
  ImageWithReplacedSpecConsts : ImageImpl;
  OriginalImage : ImageImpl;
  SpecConstsSet : bool
}.

Definition initial : selection :=
  {| SelectedImage := None; ImageWithReplacedSpecConsts := None;
     OriginalImage := None; SpecConstsSet := false |}.

(** [Image && Image->all_specialization_constant_native()] *)
Definition is_native (i : ImageImpl) : bool :=
  match i with
  | Some img => all_specialization_constant_native img
  | None => false
  end.

(** [Image && !Image->all_specialization_constant_native()] *)
Definition is_not_native (i : ImageImpl) : bool :=
  match i with
  | Some img => negb (all_specialization_constant_native img)
  | None => false
  end.

(** The loop over [MDeviceImages], from the state [st]; the result is what
    the function returns, after a [break] or at the end of the images. *)
Fixpoint select_from (KernelID : kernel_id) (images : list device_image)
    (st : selection) : ImageImpl :=
  match images with
  | [] => SelectedImage st
  | DeviceImage :: rest =>
      if negb (has_kernel DeviceImage KernelID) then
        select_from KernelID rest st
      else
        let set := SpecConstsSet st
                   || is_any_specialization_constant_set DeviceImage in
        let replaced :=
          if specialization_constants_replaced_with_default DeviceImage
          then Some DeviceImage else ImageWithReplacedSpecConsts st in
        let original :=
          if specialization_constants_replaced_with_default DeviceImage
          then OriginalImage st else Some DeviceImage in
        if set then
          let selected := original in
          if is_native selected then selected
          else
            select_from KernelID rest
              {| SelectedImage := selected;
                 ImageWithReplacedSpecConsts := replaced;
                 OriginalImage := original; SpecConstsSet := set |}
        else
          let selected :=
            if is_not_native replaced then replaced else original in
          select_from KernelID rest
            {| SelectedImage := selected;
               ImageWithReplacedSpecConsts := replaced;
               OriginalImage := original; SpecConstsSet := set |}
  end.

Definition select_image_for_kernel (MDeviceImages : list device_image)
    (KernelID : kernel_id) : ImageImpl :=
  select_from KernelID MDeviceImages initial.

(** The last image of a list that holds the kernel and satisfies [f]. *)
Definition last_candidate (KernelID : kernel_id) (f : device_image -> bool)
    (images : list device_image) : ImageImpl :=
  find (fun img => has_kernel img KernelID && f img) (rev images).

(** The first image if there is one, else the second. *)
Definition or_else (i j : ImageImpl) : ImageImpl :=
  match i with Some x => Some x | None => j end.

(** What the variables hold between two images. *)
Record coherent (st : selection) : Prop := {
  original_kept : forall o, OriginalImage st = Some o -> specialization_constants_replaced_with_default o = false;
  replaced_kept : forall r, ImageWithReplacedSpecConsts st = Some r -> specialization_constants_replaced_with_default r = true;
  selected_is :
    SelectedImage st =
      if SpecConstsSet st then OriginalImage st
      else if is_not_native (ImageWithReplacedSpecConsts st)
           then ImageWithReplacedSpecConsts st else OriginalImage st
}.


(** Two images for kernel 0, for examples: one with its constants replaced
    by their defaults and no native support, one as it was built, with a
    constant set and native support. *)
Definition example_replaced : device_image :=
  {| has_kernel := Nat.eqb 0;
     is_any_specialization_constant_set := false;
     specialization_constants_replaced_with_default := true;
     all_specialization_constant_native := false |}.

Definition example_original : device_image :=
  {| has_kernel := Nat.eqb 0;
     is_any_specialization_constant_set := true;
     specialization_constants_replaced_with_default := false;
     all_specialization_constant_native := true |}.

End KernelBundle.

(** * Properties *)

(** ** Bit-level arithmetic *)

Module BitFacts.

Lemma all_bits_sound (P : Z -> bool) (k : nat) :
  forall base, all_bits k base P = true ->
  forall z, base * 2 ^ Z.of_nat k <= z < (base + 1) * 2 ^ Z.of_nat k ->
  P z = true.
Proof.
  induction k as [|k IH]; intros base Hall z Hz.
  - simpl in *. replace z with base by lia. exact Hall.
  - cbn [all_bits] in Hall. apply andb_true_iff in Hall as [Hlo Hhi].
    rewrite Nat2Z.inj_succ, Z.pow_succ_r in Hz by lia.
    assert (0 < 2 ^ Z.of_nat k) by (apply Z.pow_pos_nonneg; lia).
    destruct (Z_lt_le_dec z ((2 * base + 1) * 2 ^ Z.of_nat k)).
    + apply (IH (2 * base)); [exact Hlo | nia].
    + apply (IH (2 * base + 1)); [exact Hhi | nia].
Qed.

(** All 16-bit patterns. *)
Lemma all_u16 (P : Z -> bool) :
  all_bits 16 0 P = true -> forall z, is_u16 z -> P z = true.
Proof.
  intros Hall z Hz. apply (all_bits_sound P 16 0 Hall).
  unfold is_u16 in Hz. change (2 ^ Z.of_nat 16) with (2 ^ 16). lia.
Qed.

(** All 15-bit magnitudes. *)
Lemma all_u15 (P : Z -> bool) :
  all_bits 15 0 P = true -> forall z, 0 <= z < 2 ^ 15 -> P z = true.
Proof.
  intros Hall z Hz. apply (all_bits_sound P 15 0 Hall).
  change (2 ^ Z.of_nat 15) with (2 ^ 15). lia.
Qed.

Lemma land_pow2 (x n : Z) :
  0 <= n -> Z.land x (2 ^ n) = if Z.testbit x n then 2 ^ n else 0.
Proof.
  intros Hn. apply Z.bits_inj'. intros i Hi.
  rewrite Z.land_spec, Z.pow2_bits_eqb by assumption.
  destruct (Z.eqb_spec n i) as [->|Hne].
  - destruct (Z.testbit x i) eqn:E; simpl.
    + now rewrite Z.pow2_bits_true.
    + now rewrite Z.bits_0.
  - rewrite andb_false_r.
    destruct (Z.testbit x n).
    + rewrite Z.pow2_bits_false; auto.
    + now rewrite Z.bits_0.
Qed.

Lemma testbit_top (x n : Z) :
  0 <= n -> 0 <= x < 2 ^ (n + 1) -> Z.testbit x n = (2 ^ n <=? x).
Proof.
  intros Hn Hx.
  assert (Hp : 0 < 2 ^ n) by (apply Z.pow_pos_nonneg; lia).
  rewrite Z.pow_add_r, Z.pow_1_r in Hx by lia.
  destruct (Z.leb_spec (2 ^ n) x) as [Hle|Hlt].
  - apply Z.testbit_true; [assumption|].
    replace (x / 2 ^ n) with 1; [reflexivity|].
    apply Z.div_unique with (r := x - 2 ^ n); lia.
  - apply Z.testbit_false; [assumption|].
    rewrite Z.div_small by lia. reflexivity.
Qed.

Lemma lor_pow2 (h n : Z) :
  0 <= n -> 0 <= h < 2 ^ n -> Z.lor h (2 ^ n) = h + 2 ^ n.
Proof.
  intros Hn Hh.
  assert (Hz : Z.land h (2 ^ n) = 0).
  { rewrite land_pow2 by assumption.
    rewrite testbit_top by (rewrite ?Z.pow_add_r, ?Z.pow_1_r; lia).
    destruct (Z.leb_spec (2 ^ n) h); [lia | reflexivity]. }
  rewrite <- Z.lxor_lor by assumption.
  symmetry. now apply Z.add_nocarry_lxor.
Qed.

Lemma lxor_pow2 (x n : Z) :
  0 <= n -> 0 <= x < 2 ^ (n + 1) ->
  Z.lxor x (Z.land x (2 ^ n)) = x mod 2 ^ n.
Proof.
  intros Hn Hx.
  assert (Hp : 0 < 2 ^ n) by (apply Z.pow_pos_nonneg; lia).
  rewrite land_pow2, testbit_top by assumption.
  rewrite Z.pow_add_r, Z.pow_1_r in Hx by lia.
  destruct (Z.leb_spec (2 ^ n) x) as [Hle|Hlt].
  - remember (x - 2 ^ n) as r eqn:Er.
    assert (Hr : 0 <= r < 2 ^ n) by lia.
    assert (Hz : Z.land r (2 ^ n) = 0).
    { rewrite land_pow2 by assumption.
      rewrite testbit_top by (rewrite ?Z.pow_add_r, ?Z.pow_1_r; lia).
      destruct (Z.leb_spec (2 ^ n) r); [lia | reflexivity]. }
    apply Z.add_nocarry_lxor in Hz.
    replace x with (r + 2 ^ n) by lia.
    rewrite Hz, Z.lxor_assoc, Z.lxor_nilpotent, Z.lxor_0_r, <- Hz.
    apply Z.mod_unique with (q := 1); lia.
  - rewrite Z.lxor_0_r, Z.mod_small; lia.
Qed.

Lemma land_1 (x : Z) : Z.land x 1 = x mod 2.
Proof. exact (Z.land_ones x 1 ltac:(lia)). Qed.

Lemma u16_mod (z : Z) : u16 z = z mod 2 ^ 16.
Proof. exact (Z.land_ones z 16 ltac:(lia)). Qed.

Lemma u32_mod (z : Z) : u32 z = z mod 2 ^ 32.
Proof. exact (Z.land_ones z 32 ltac:(lia)). Qed.

End BitFacts.

(** ** Sign and magnitude of a binary32 pattern *)

Module F32Facts.

Lemma magnitude_spec (x : Z) : magnitude x = x mod 2 ^ 31.
Proof. exact (Z.land_ones x 31 ltac:(lia)). Qed.

Lemma magnitude_range (x : Z) : 0 <= magnitude x < 2 ^ 31.
Proof. rewrite magnitude_spec. apply Z.mod_pos_bound. lia. Qed.

Lemma signbit_spec (x : Z) : is_u32 x -> F32.signbit x = (2 ^ 31 <=? x).
Proof. intros Hx. apply (BitFacts.testbit_top x 31); [lia | exact Hx]. Qed.

Lemma land_signmask (x : Z) :
  Z.land x 0x80000000 = if F32.signbit x then 0x80000000 else 0.
Proof. exact (BitFacts.land_pow2 x 31 ltac:(lia)). Qed.

Lemma strip_sign (x : Z) :
  is_u32 x -> Z.lxor x (Z.land x 0x80000000) = magnitude x.
Proof.
  intros Hx. rewrite magnitude_spec.
  apply (BitFacts.lxor_pow2 x 31); [lia | exact Hx].
Qed.

Lemma sign_magnitude (x : Z) :
  is_u32 x ->
  x = magnitude x + (if F32.signbit x then 2 ^ 31 else 0).
Proof.
  intros Hx. rewrite magnitude_spec, signbit_spec by assumption.
  unfold is_u32 in Hx.
  destruct (Z.leb_spec (2 ^ 31) x).
  - rewrite <- (Z.mod_unique x (2 ^ 31) 1 (x - 2 ^ 31)); lia.
  - rewrite Z.mod_small; lia.
Qed.

(** The sign moved down to bit 15, as [float2half] attaches it. *)
Lemma sign_shifted (x : Z) :
  u16 (Z.shiftr (Z.land x 0x80000000) kF32HalfBitDiff) = sign16 x.
Proof.
  rewrite land_signmask. unfold sign16.
  destruct (F32.signbit x); reflexivity.
Qed.

(** Attaching the sign to a 15-bit magnitude adds bit 15. *)
Lemma lor_sign16 (h x : Z) :
  0 <= h < 2 ^ 15 ->
  Z.lor h (sign16 x) = h + (if F32.signbit x then 0x8000 else 0).
Proof.
  intros Hh. unfold sign16. destruct (F32.signbit x).
  - change (Z.shiftl (Z.b2z true) 15) with (2 ^ 15).
    now apply BitFacts.lor_pow2.
  - change (Z.shiftl (Z.b2z false) 15) with 0. rewrite Z.lor_0_r. lia.
Qed.

End F32Facts.

(** ** Half precision: the overflow, Infinity and NaN region *)

(** C4: a binary32 input whose magnitude pattern is at least
    [(127 + 16) << 23] encodes to the quiet NaN [0x7e00] when the magnitude
    pattern exceeds that of Infinity, and to Infinity [0x7c00] otherwise,
    in both cases with the sign of the input in bit 15.  The function is
    total: finite overflow yields Infinity and nothing else. *)
Theorem float2half_overflow_region (x : Z) :
  is_u32 x ->
  Z.shiftl (127 + 16) 23 <= magnitude x ->
  float2half x =
    Z.lor (if Z.shiftl 255 23 <? magnitude x then 0x7e00 else 0x7c00)
          (sign16 x).
Proof.
  intros Hx Hmag. unfold float2half. cbv zeta.
  rewrite F32Facts.strip_sign, F32Facts.sign_shifted by assumption.
  change kF32MantiBits with 23.
  rewrite (proj2 (Z.leb_le _ _) Hmag).
  f_equal. destruct (Z.shiftl 255 23 <? magnitude x); reflexivity.
Qed.

Lemma float2half_overflow_region_witness :
  float2half 0x47800000 = 0x7c00 /\ float2half 0xffc00001 = 0xfe00.
Proof.
  split.
  - apply (float2half_overflow_region 0x47800000); [unfold is_u32; lia|].
    vm_compute. discriminate.
  - apply (float2half_overflow_region 0xffc00001); [unfold is_u32; lia|].
    vm_compute. discriminate.
Defined.

(** ** Classification of binary32 patterns *)

Module F32Class.

Lemma expo_spec (x : Z) : IEEE.expo_of 23 8 x = (x / 2 ^ 23) mod 2 ^ 8.
Proof.
  unfold IEEE.expo_of.
  rewrite Z.shiftr_div_pow2 by lia. exact (Z.land_ones _ 8 ltac:(lia)).
Qed.

Lemma mant_spec (x : Z) : IEEE.mant_of 23 x = x mod 2 ^ 23.
Proof. exact (Z.land_ones x 23 ltac:(lia)). Qed.

(** The magnitude is the exponent field followed by the mantissa field. *)
Lemma magnitude_fields (x : Z) :
  magnitude x = IEEE.expo_of 23 8 x * 2 ^ 23 + IEEE.mant_of 23 x.
Proof.
  rewrite F32Facts.magnitude_spec, expo_spec, mant_spec.
  change (2 ^ 31) with (2 ^ 23 * 2 ^ 8).
  rewrite Z.rem_mul_r by lia. lia.
Qed.

Lemma expo_range (x : Z) : 0 <= IEEE.expo_of 23 8 x < 2 ^ 8.
Proof. rewrite expo_spec. apply Z.mod_pos_bound. lia. Qed.

Lemma mant_range (x : Z) : 0 <= IEEE.mant_of 23 x < 2 ^ 23.
Proof. rewrite mant_spec. apply Z.mod_pos_bound. lia. Qed.

(** [std::isnan], a test on the pattern, agrees with the value the
    pattern denotes. *)
Lemma isnan_of_bits (x : Z) :
  F32.isnan x = true <-> F32.of_bits x = S754_nan.
Proof.
  unfold F32.isnan, F32.of_bits, IEEE.of_bits, IEEE.decode.
  fold (magnitude x). rewrite (magnitude_fields x).
  pose proof (expo_range x) as He. pose proof (mant_range x) as Hm.
  set (e := IEEE.expo_of 23 8 x) in *. set (m := IEEE.mant_of 23 x) in *.
  change (Z.ones 8) with 255. change (2 ^ 8) with 256 in He.
  change (2 ^ 23) with 8388608 in *.
  rewrite Z.ltb_lt.
  destruct (Z.eqb_spec e 0) as [E0|E0].
  - split; [lia|]. destruct m; discriminate.
  - destruct (Z.eqb_spec e 255) as [E1|E1].
    + destruct (Z.eqb_spec m 0); split; (lia || discriminate || reflexivity).
    + split; [lia|].
      destruct (m + 8388608) eqn:E; (lia || discriminate).
Qed.

End F32Class.

(** ** Bfloat16 encoding *)

(** C5: a NaN encodes to [0xFFC0] when its sign bit is set and to [0x7FC0]
    otherwise, whatever its payload. *)
Theorem float2bfloat_nan (x : Z) :
  F32.of_bits x = S754_nan ->
  float2bfloat x = if F32.signbit x then 0xFFC0 else 0x7FC0.
Proof.
  intros Hnan. apply F32Class.isnan_of_bits in Hnan.
  unfold float2bfloat. now rewrite Hnan.
Qed.

Lemma float2bfloat_nan_witness :
  float2bfloat 0x7f800001 = 0x7FC0 /\ float2bfloat 0xffffffff = 0xFFC0.
Proof.
  split.
  - apply (float2bfloat_nan 0x7f800001). reflexivity.
  - apply (float2bfloat_nan 0xffffffff). reflexivity.
Defined.

(** ** Magnitudes as multiples of the smallest subnormal *)

Module Scaled.

Section Mono.
Variable mw : Z.
Hypothesis Hmw : 0 <= mw.

Lemma scaled_spec (x : Z) :
  0 <= x ->
  scaled mw x =
    if x / 2 ^ mw =? 0 then x mod 2 ^ mw
    else (2 ^ mw + x mod 2 ^ mw) * 2 ^ (x / 2 ^ mw - 1).
Proof.
  intros Hx. unfold scaled.
  rewrite Z.shiftr_div_pow2, Z.land_ones by assumption.
  assert (0 <= x / 2 ^ mw) by (apply Z.div_pos; [lia | apply Z.pow_pos_nonneg; lia]).
  destruct (Z.eqb_spec (x / 2 ^ mw) 0); [reflexivity|].
  apply Z.shiftl_mul_pow2. lia.
Qed.

Lemma spacing_spec (x : Z) :
  spacing mw x = if x / 2 ^ mw =? 0 then 1 else 2 ^ (x / 2 ^ mw - 1).
Proof. unfold spacing. now rewrite Z.shiftr_div_pow2 by assumption. Qed.

(** The magnitude grows strictly with the pattern, across binades too. *)
Lemma scaled_lt (x y : Z) : 0 <= x < y -> scaled mw x < scaled mw y.
Proof.
  intros Hxy. rewrite !scaled_spec by lia.
  assert (HP : 0 < 2 ^ mw) by (apply Z.pow_pos_nonneg; lia).
  pose proof (Z.div_mod x (2 ^ mw) ltac:(lia)) as Ex.
  pose proof (Z.div_mod y (2 ^ mw) ltac:(lia)) as Ey.
  pose proof (Z.mod_pos_bound x (2 ^ mw) HP) as Hmx.
  pose proof (Z.mod_pos_bound y (2 ^ mw) HP) as Hmy.
  assert (Hex : 0 <= x / 2 ^ mw) by (apply Z.div_pos; lia).
  assert (Hle : x / 2 ^ mw <= y / 2 ^ mw) by (apply Z.div_le_mono; lia).
  set (P := 2 ^ mw) in *.
  set (ex := x / P) in *. set (ey := y / P) in *.
  set (mx := x mod P) in *. set (my := y mod P) in *.
  destruct (Z.eqb_spec ex 0) as [Zx|Zx], (Z.eqb_spec ey 0) as [Zy|Zy].
  - nia.
  - assert (1 <= 2 ^ (ey - 1)) by (apply Z.pow_le_mono_r with (b := 0); lia).
    nia.
  - lia.
  - assert (Qx : 0 < 2 ^ (ex - 1)) by (apply Z.pow_pos_nonneg; lia).
    destruct (Z.eq_dec ex ey) as [Eq|Ne].
    + rewrite <- Eq. assert (mx < my) by nia. nia.
    + assert (Hstep : 2 * 2 ^ (ex - 1) <= 2 ^ (ey - 1)).
      { rewrite <- Z.pow_succ_r by lia.
        apply Z.pow_le_mono_r; lia. }
      nia.
Qed.

(** Within a binade, and up to the first pattern of the next one, the
    magnitude grows by one spacing per pattern. *)
Lemma scaled_add (x k : Z) :
  0 <= x -> 0 <= k -> x mod 2 ^ mw + k <= 2 ^ mw ->
  scaled mw (x + k) = scaled mw x + k * spacing mw x.
Proof.
  intros Hx Hk Hfit. rewrite !scaled_spec, spacing_spec by lia.
  assert (HP : 0 < 2 ^ mw) by (apply Z.pow_pos_nonneg; lia).
  pose proof (Z.div_mod x (2 ^ mw) ltac:(lia)) as Ex.
  pose proof (Z.mod_pos_bound x (2 ^ mw) HP) as Hm.
  assert (He : 0 <= x / 2 ^ mw) by (apply Z.div_pos; lia).
  set (P := 2 ^ mw) in *. set (e := x / P) in *. set (m := x mod P) in *.
  destruct (Z.eq_dec (m + k) P) as [Hfull|Hlow].
  - assert (Hd : (x + k) / P = e + 1)
      by (symmetry; apply Z.div_unique with (r := 0); lia).
    assert (Hr : (x + k) mod P = 0)
      by (symmetry; apply Z.mod_unique with (q := e + 1); lia).
    rewrite Hd, Hr.
    destruct (Z.eqb_spec (e + 1) 0) as [|_]; [lia|].
    replace (e + 1 - 1) with e by lia.
    destruct (Z.eqb_spec e 0) as [->|Hne].
    + rewrite Z.pow_0_r. lia.
    + replace e with (Z.succ (e - 1)) at 1 by lia.
      rewrite Z.pow_succ_r by lia.
      replace k with (P - m) by lia. ring.
  - assert (Hd : (x + k) / P = e)
      by (symmetry; apply Z.div_unique with (r := m + k); lia).
    assert (Hr : (x + k) mod P = m + k)
      by (symmetry; apply Z.mod_unique with (q := e); lia).
    rewrite Hd, Hr.
    destruct (Z.eqb_spec e 0); [lia | ring].
Qed.

Lemma scaled_le_inv (x y : Z) :
  0 <= x -> 0 <= y -> scaled mw x <= scaled mw y -> x <= y.
Proof.
  intros Hx Hy Hle. destruct (Z_le_gt_dec x y) as [|Hgt]; [assumption|].
  pose proof (scaled_lt y x ltac:(lia)). lia.
Qed.

Lemma scaled_inj (x y : Z) :
  0 <= x -> 0 <= y -> scaled mw x = scaled mw y -> x = y.
Proof.
  intros Hx Hy Heq.
  pose proof (scaled_le_inv x y Hx Hy ltac:(lia)).
  pose proof (scaled_le_inv y x Hy Hx ltac:(lia)). lia.
Qed.
End Mono.

End Scaled.

(** C10: a binary32 input that is not a NaN and whose magnitude is at
    least halfway from the largest finite bf16 value to 2^128 (Infinity
    included) encodes to the bf16 Infinity of its sign, [0x7F80] or
    [0xFF80]: the rounding bias carries into the exponent field. *)
Theorem float2bfloat_overflow (x : Z) :
  is_u32 x ->
  F32.isnan x = false ->
  bfloat_overflows x ->
  float2bfloat x = Z.lor 0x7F80 (sign16 x).
Proof.
  intros Hx Hnan Hov.
  assert (Hlo : 0x7F7F8000 <= magnitude x).
  { apply (Scaled.scaled_le_inv 23); [lia | lia | apply F32Facts.magnitude_range |].
    unfold bfloat_overflows in Hov.
    assert (E : 2 * scaled 23 0x7F7F8000
                = scaled 23 0x7F7F0000 + scaled 23 0x7F800000) by reflexivity.
    lia. }
  assert (Hhi : magnitude x <= 0x7F800000).
  { unfold F32.isnan in Hnan. fold (magnitude x) in Hnan.
    apply Z.ltb_ge in Hnan. exact Hnan. }
  pose proof (F32Facts.sign_magnitude x Hx) as Esm.
  rewrite F32Facts.lor_sign16 by lia.
  unfold float2bfloat. rewrite Hnan. cbv zeta.
  unfold kF32BfMantiBitDiff.
  rewrite BitFacts.u16_mod, BitFacts.u32_mod.
  rewrite BitFacts.land_1, !Z.shiftr_div_pow2 by lia.
  change (2 ^ 16) with 65536. change (2 ^ 32) with 4294967296.
  change (2 ^ 31) with 2147483648 in Esm.
  destruct (F32.signbit x); Z.to_euclidean_division_equations; lia.
Qed.

Lemma float2bfloat_overflow_witness :
  float2bfloat 0x7F7F8000 = 0x7F80 /\ float2bfloat 0xFF800000 = 0xFF80.
Proof.
  split.
  - apply (float2bfloat_overflow 0x7F7F8000);
      [unfold is_u32; lia | reflexivity | unfold bfloat_overflows; vm_compute; discriminate].
  - apply (float2bfloat_overflow 0xFF800000);
      [unfold is_u32; lia | reflexivity | unfold bfloat_overflows; vm_compute; discriminate].
Defined.

(** ** Bfloat16 decoding *)

Module BfloatFacts.

Lemma bfloat2float_spec (p : Z) : is_u16 p -> bfloat2float p = p * 2 ^ 16.
Proof.
  intros Hp. unfold bfloat2float, kF32BfMantiBitDiff, is_u16 in *.
  rewrite BitFacts.u32_mod, Z.shiftl_mul_pow2 by lia. apply Z.mod_small. lia.
Qed.

Lemma bfloat2float_range (p : Z) : is_u16 p -> is_u32 (bfloat2float p).
Proof.
  intros Hp. rewrite bfloat2float_spec by assumption.
  unfold is_u16, is_u32 in *. lia.
Qed.

Lemma magnitude_bfloat2float (p : Z) :
  is_u16 p -> magnitude (bfloat2float p) = Z.land p 0x7fff * 2 ^ 16.
Proof.
  intros Hp. rewrite bfloat2float_spec, F32Facts.magnitude_spec by assumption.
  change (Z.land p 0x7fff) with (Z.land p (Z.ones 15)).
  rewrite Z.land_ones by lia.
  change (2 ^ 31) with (2 ^ 15 * 2 ^ 16).
  apply Z.mul_mod_distr_r; lia.
Qed.

Lemma isnan_bfloat2float (p : Z) :
  is_u16 p -> F32.isnan (bfloat2float p) = bfloat_isnan p.
Proof.
  intros Hp. unfold F32.isnan, bfloat_isnan.
  fold (magnitude (bfloat2float p)).
  rewrite magnitude_bfloat2float by assumption.
  destruct (Z.ltb_spec 0x7f80 (Z.land p 0x7fff));
    [apply Z.ltb_lt | apply Z.ltb_ge]; lia.
Qed.

Lemma signbit_bfloat2float (p : Z) :
  is_u16 p -> F32.signbit (bfloat2float p) = Z.testbit p 15.
Proof.
  intros Hp. rewrite bfloat2float_spec by assumption.
  unfold F32.signbit. now rewrite Z.mul_pow2_bits by lia.
Qed.

End BfloatFacts.

(** ** The magnitudes are the values the decoders produce *)

Module Values.

(** The magnitude of a finite binary32 pattern is the value [m * 2^e] it
    denotes, counted in units of 2^-149. *)
Lemma scaled_of_bits (x : Z) (s : bool) (m : positive) (e : Z) :
  F32.of_bits x = S754_finite s m e ->
  scaled 23 (magnitude x) = Zpos m * 2 ^ (e + 149).
Proof.
  unfold F32.of_bits, IEEE.of_bits, IEEE.decode.
  rewrite Scaled.scaled_spec
    by (lia || apply F32Facts.magnitude_range).
  rewrite (F32Class.magnitude_fields x).
  pose proof (F32Class.expo_range x) as He.
  pose proof (F32Class.mant_range x) as Hm.
  set (ex := IEEE.expo_of 23 8 x) in *. set (mx := IEEE.mant_of 23 x) in *.
  assert (Hd : (ex * 2 ^ 23 + mx) / 2 ^ 23 = ex).
  { symmetry. apply Z.div_unique with (r := mx); lia. }
  assert (Hr : (ex * 2 ^ 23 + mx) mod 2 ^ 23 = mx).
  { symmetry. apply Z.mod_unique with (q := ex); lia. }
  rewrite Hd, Hr. clear Hd Hr.
  change (1 - IEEE.bias 8 - 23) with (-149). change (IEEE.bias 8) with 127.
  generalize (IEEE.sign_of 23 8 x) as sx. intros sx. clearbody ex mx.
  destruct (Z.eqb_spec ex 0) as [E0|E0].
  - destruct mx as [|p|p]; intros H; try discriminate H.
    injection H as _ <- <-. change (-149 + 149) with 0. lia.
  - destruct (ex =? Z.ones 8); [destruct (mx =? 0); discriminate|].
    destruct (mx + 2 ^ 23) as [|q|q] eqn:E; intros H; try discriminate H.
    injection H as _ <- <-.
    replace (ex - 127 - 23 + 149) with (ex - 1) by lia.
    rewrite Z.add_comm, E. reflexivity.
Qed.

(** A bf16 magnitude moved up by 16 bits is the binary32 pattern of the
    same magnitude (2^-133 is 2^16 times 2^-149). *)
Lemma scaled_shift16 (h : Z) :
  0 <= h -> scaled 23 (h * 2 ^ 16) = 2 ^ 16 * scaled 7 h.
Proof.
  intros Hh. rewrite !Scaled.scaled_spec by lia.
  assert (Hd : h * 2 ^ 16 / 2 ^ 23 = h / 2 ^ 7).
  { change (2 ^ 23) with (2 ^ 16 * 2 ^ 7).
    rewrite <- Z.div_div, Z.div_mul by lia. reflexivity. }
  assert (Hr : (h * 2 ^ 16) mod 2 ^ 23 = h mod 2 ^ 7 * 2 ^ 16).
  { change (2 ^ 23) with (2 ^ 7 * 2 ^ 16). apply Z.mul_mod_distr_r; lia. }
  rewrite Hd, Hr.
  destruct (h / 2 ^ 7 =? 0); [lia|].
  change (2 ^ 23) with (2 ^ 16 * 2 ^ 7). ring.
Qed.

(** [bfloat2float] keeps the magnitude. *)
Lemma scaled_bfloat2float (h : Z) :
  0 <= h < 2 ^ 15 -> scaled 23 (bfloat2float h) = 2 ^ 16 * scaled 7 h.
Proof.
  intros Hh.
  rewrite BfloatFacts.bfloat2float_spec by (unfold is_u16; lia).
  apply scaled_shift16. lia.
Qed.

(** [half2float] keeps the magnitude of every finite f16 pattern. *)
Lemma scaled_half2float (h : Z) :
  0 <= h < 0x7c00 -> scaled 23 (half2float h) = 2 ^ 125 * scaled 10 h.
Proof.
  intros Hh.
  assert (Hall : all_bits 15 0 half_value_check = true)
    by (vm_compute; reflexivity).
  pose proof (BitFacts.all_u15 half_value_check Hall h ltac:(lia)) as Hc.
  unfold half_value_check in Hc.
  rewrite (proj2 (Z.ltb_lt h 0x7c00)) in Hc by lia.
  apply Z.eqb_eq in Hc. rewrite Hc, Z.shiftl_mul_pow2 by lia. lia.
Qed.

End Values.

(** C2: decoding a bf16 pattern and encoding the result gives the pattern
    back unless it is a NaN; a NaN pattern comes back as a NaN pattern of
    the same sign. *)
Theorem bfloat_roundtrip (p : Z) :
  is_u16 p ->
  (bfloat_isnan p = false -> float2bfloat (bfloat2float p) = p) /\
  (bfloat_isnan p = true ->
     bfloat_isnan (float2bfloat (bfloat2float p)) = true /\
     Z.testbit (float2bfloat (bfloat2float p)) 15 = Z.testbit p 15).
Proof.
  intros Hp. unfold float2bfloat.
  rewrite BfloatFacts.isnan_bfloat2float, BfloatFacts.signbit_bfloat2float
    by assumption.
  split; intros Hnan; rewrite Hnan.
  - cbv zeta. rewrite BfloatFacts.bfloat2float_spec by assumption.
    unfold kF32BfMantiBitDiff, is_u16 in *.
    rewrite BitFacts.u16_mod, BitFacts.u32_mod.
    rewrite BitFacts.land_1, !Z.shiftr_div_pow2 by lia.
    change (2 ^ 16) with 65536 in *. change (2 ^ 32) with 4294967296.
    Z.to_euclidean_division_equations; lia.
  - destruct (Z.testbit p 15); split; reflexivity.
Qed.

Lemma bfloat_roundtrip_witness :
  float2bfloat (bfloat2float 0x3F80) = 0x3F80.
Proof.
  apply (bfloat_roundtrip 0x3F80); [unfold is_u16; lia | reflexivity].
Defined.

(** The payload of a NaN is not kept: [0x7F81] comes back as [0x7FC0]. *)
Example bfloat_roundtrip_nan_payload :
  bfloat_isnan 0x7F81 = true /\ float2bfloat (bfloat2float 0x7F81) = 0x7FC0.
Proof. split; reflexivity. Qed.

(** ** Order of decoded values *)

Module OrderFacts.

Lemma SFabs_decode (s : bool) (e m : Z) :
  SFabs (IEEE.decode 23 8 s e m) = IEEE.decode 23 8 false e m.
Proof.
  unfold IEEE.decode.
  destruct (e =? 0); [destruct m; reflexivity|].
  destruct (e =? Z.ones 8); [destruct (m =? 0); reflexivity|].
  destruct (m + 2 ^ 23); reflexivity.
Qed.

Lemma compare_finite (s : bool) (m1 m2 : positive) (e1 e2 : Z) :
  e1 < e2 \/ (e1 = e2 /\ (m1 < m2)%positive) ->
  SFcompare (S754_finite s m1 e1) (S754_finite s m2 e2)
    = Some (if s then Gt else Lt) /\
  SFcompare (S754_finite s m2 e2) (S754_finite s m1 e1)
    = Some (if s then Lt else Gt).
Proof.
  intros [Hlt | [-> Hlt]]; unfold SFcompare.
  - rewrite (proj2 (Z.compare_lt_iff e1 e2) Hlt).
    rewrite (proj2 (Z.compare_gt_iff e2 e1) Hlt).
    destruct s; split; reflexivity.
  - rewrite Z.compare_refl.
    change (Pos.compare_cont Eq m1 m2) with (Pos.compare m1 m2).
    change (Pos.compare_cont Eq m2 m1) with (Pos.compare m2 m1).
    rewrite (proj2 (Pos.compare_lt_iff m1 m2) Hlt).
    rewrite (proj2 (Pos.compare_gt_iff m2 m1) Hlt).
    destruct s; split; reflexivity.
Qed.

(** Of two values of one sign that are not NaN, the one with the smaller
    (exponent field, mantissa field) is the one closer to zero. *)
Lemma compare_decode (s : bool) (e1 m1 e2 m2 : Z) :
  0 <= e1 -> 0 <= m1 < 2 ^ 23 -> 0 <= m2 < 2 ^ 23 ->
  e2 <= 255 -> (e2 = 255 -> m2 = 0) ->
  e1 < e2 \/ (e1 = e2 /\ m1 < m2) ->
  SFcompare (IEEE.decode 23 8 s e1 m1) (IEEE.decode 23 8 s e2 m2)
    = Some (if s then Gt else Lt) /\
  SFcompare (IEEE.decode 23 8 s e2 m2) (IEEE.decode 23 8 s e1 m1)
    = Some (if s then Lt else Gt).
Proof.
  intros He1 Hm1 Hm2 He2 Hinf Hlt. unfold IEEE.decode.
  change (Z.ones 8) with 255. change (1 - IEEE.bias 8 - 23) with (-149).
  change (IEEE.bias 8) with 127. change (2 ^ 23) with 8388608 in *.
  destruct (Z.eqb_spec e1 0) as [Z1|Z1], (Z.eqb_spec e2 0) as [Z2|Z2];
    try lia.
  - (* both subnormal or zero *)
    destruct m1 as [|p1|p1], m2 as [|p2|p2]; try lia.
    + destruct s; split; reflexivity.
    + apply compare_finite. right. split; [reflexivity | lia].
  - (* subnormal or zero, then normal or Infinity *)
    destruct (Z.eqb_spec e2 255) as [I2|I2].
    + rewrite (Hinf I2). destruct m1; destruct s; split; reflexivity.
    + destruct (m2 + 8388608) as [|q2|q2] eqn:E2; try lia.
      destruct m1 as [|p1|p1]; try lia.
      * destruct s; split; reflexivity.
      * apply compare_finite.
        destruct (Z.eq_dec e2 1) as [->|]; [right | left]; [|lia].
        split; [reflexivity | lia].
  - (* both normal or Infinity *)
    destruct (Z.eqb_spec e1 255) as [I1|I1]; [lia|].
    destruct (m1 + 8388608) as [|q1|q1] eqn:E1; try lia.
    destruct (Z.eqb_spec e2 255) as [I2|I2].
    + rewrite (Hinf I2). destruct s; split; reflexivity.
    + destruct (m2 + 8388608) as [|q2|q2] eqn:E2; try lia.
      apply compare_finite. lia.
Qed.

Lemma leb_of_compare (f g : spec_float) :
  SFcompare f g = Some Lt -> SFleb f g = true.
Proof. intros H. unfold SFleb. now rewrite H. Qed.

End OrderFacts.

(** C8: [bfloat2float] is injective on the 16-bit patterns, and it keeps
    the order of magnitudes: of two patterns [a < b] of one sign, neither
    a NaN, the value of [a] has the smaller magnitude, so it is below the
    value of [b] when both are positive and above it when both are
    negative. *)
Theorem bfloat2float_order :
  (forall a b, is_u16 a -> is_u16 b ->
     bfloat2float a = bfloat2float b -> a = b) /\
  (forall a b, is_u16 a -> is_u16 b ->
     bfloat_isnan a = false -> bfloat_isnan b = false ->
     Z.testbit a 15 = Z.testbit b 15 -> a < b ->
     let fa := F32.of_bits (bfloat2float a) in
     let fb := F32.of_bits (bfloat2float b) in
     SFleb (SFabs fa) (SFabs fb) = true /\
     (if Z.testbit a 15 then SFleb fb fa else SFleb fa fb) = true).
Proof.
  split.
  - intros a b Ha Hb. rewrite !BfloatFacts.bfloat2float_spec by assumption. lia.
  - intros a b Ha Hb Na Nb Hs Hab fa fb.
    assert (Hmag : Z.land a 0x7fff < Z.land b 0x7fff <= 0x7f80).
    { unfold bfloat_isnan in Nb. apply Z.ltb_ge in Nb. split; [|exact Nb].
      change 0x7fff with (Z.ones 15). rewrite !Z.land_ones by lia.
      rewrite !(BitFacts.testbit_top _ 15) in Hs by (unfold is_u16 in *; lia).
      unfold is_u16 in *. change (2 ^ 16) with 65536 in *.
      change (2 ^ 15) with 32768 in *.
      destruct (Z.leb_spec 32768 a), (Z.leb_spec 32768 b); try discriminate;
        Z.to_euclidean_division_equations; lia. }
    rewrite <- (BfloatFacts.signbit_bfloat2float a Ha).
    pose proof (BfloatFacts.signbit_bfloat2float a Ha) as Sa.
    pose proof (BfloatFacts.signbit_bfloat2float b Hb) as Sb.
    pose proof (BfloatFacts.magnitude_bfloat2float a Ha) as Ma.
    pose proof (BfloatFacts.magnitude_bfloat2float b Hb) as Mb.
    rewrite F32Class.magnitude_fields in Ma, Mb.
    pose proof (F32Class.expo_range (bfloat2float a)) as Ea.
    pose proof (F32Class.mant_range (bfloat2float a)) as Ra.
    pose proof (F32Class.expo_range (bfloat2float b)) as Eb.
    pose proof (F32Class.mant_range (bfloat2float b)) as Rb.
    assert (Hs' : IEEE.sign_of 23 8 (bfloat2float b)
                  = IEEE.sign_of 23 8 (bfloat2float a)).
    { change (F32.signbit (bfloat2float b) = F32.signbit (bfloat2float a)).
      congruence. }
    subst fa fb. unfold F32.of_bits, IEEE.of_bits. rewrite Hs'.
    change (F32.signbit (bfloat2float a))
      with (IEEE.sign_of 23 8 (bfloat2float a)).
    set (s := IEEE.sign_of 23 8 (bfloat2float a)).
    set (e1 := IEEE.expo_of 23 8 (bfloat2float a)) in *.
    set (m1 := IEEE.mant_of 23 (bfloat2float a)) in *.
    set (e2 := IEEE.expo_of 23 8 (bfloat2float b)) in *.
    set (m2 := IEEE.mant_of 23 (bfloat2float b)) in *.
    change (2 ^ 8) with 256 in *. change (2 ^ 16) with 65536 in *.
    assert (Hlex : e1 < e2 \/ (e1 = e2 /\ m1 < m2)) by (change (2 ^ 23) with 8388608 in *; lia).
    assert (Htop : e2 <= 255) by lia.
    assert (Hinf : e2 = 255 -> m2 = 0) by (change (2 ^ 23) with 8388608 in *; lia).
    split.
    + rewrite !OrderFacts.SFabs_decode.
      apply OrderFacts.leb_of_compare.
      apply (OrderFacts.compare_decode false e1 m1 e2 m2); lia.
    + destruct (OrderFacts.compare_decode s e1 m1 e2 m2) as [C1 C2]; try lia.
      destruct s; apply OrderFacts.leb_of_compare; assumption.
Qed.

Lemma bfloat2float_order_witness :
  SFleb (F32.of_bits (bfloat2float 0x3F80)) (F32.of_bits (bfloat2float 0x4000))
    = true /\
  SFleb (F32.of_bits (bfloat2float 0xC000)) (F32.of_bits (bfloat2float 0xBF80))
    = true /\
  (bfloat2float 0x3F80 = bfloat2float 0x3F80 -> 0x3F80 = 0x3F80).
Proof.
  split; [|split].
  - apply (proj2 bfloat2float_order 0x3F80 0x4000);
      (unfold is_u16; lia) || reflexivity.
  - apply (proj2 bfloat2float_order 0xBF80 0xC000);
      (unfold is_u16; lia) || reflexivity.
  - apply (proj1 bfloat2float_order 0x3F80 0x3F80); unfold is_u16; lia.
Defined.

(** ** Half precision: round trip through binary32 *)

(** C1: decoding an f16 pattern and encoding the result gives the pattern
    back for every normal, subnormal, zero and Infinity pattern; a NaN
    pattern comes back as a NaN pattern of the same sign. *)
Theorem half_roundtrip (p : Z) :
  is_u16 p ->
  (half_isnan p = false -> float2half (half2float p) = p) /\
  (half_isnan p = true ->
     half_isnan (float2half (half2float p)) = true /\
     Z.testbit (float2half (half2float p)) 15 = Z.testbit p 15).
Proof.
  intros Hp.
  pose (check := fun p =>
    let r := float2half (half2float p) in
    if half_isnan p
    then half_isnan r && Bool.eqb (Z.testbit r 15) (Z.testbit p 15)
    else r =? p).
  assert (Hall : all_bits 16 0 check = true) by (vm_compute; reflexivity).
  pose proof (BitFacts.all_u16 check Hall p Hp) as Hc.
  unfold check in Hc; cbv zeta in Hc. clear Hall check.
  split; intros Hnan; rewrite Hnan in Hc.
  - now apply Z.eqb_eq.
  - apply andb_true_iff in Hc as [H1 H2].
    split; [exact H1 | now apply Bool.eqb_prop].
Qed.

Lemma half_roundtrip_witness :
  float2half (half2float 0x0001) = 0x0001 /\
  float2half (half2float 0xFBFF) = 0xFBFF /\
  half_isnan (float2half (half2float 0xFC01)) = true.
Proof.
  split; [|split].
  - apply (half_roundtrip 0x0001); [unfold is_u16; lia | reflexivity].
  - apply (half_roundtrip 0xFBFF); [unfold is_u16; lia | reflexivity].
  - apply (half_roundtrip 0xFC01); [unfold is_u16; lia | reflexivity].
Defined.

(** The payload of a NaN is not kept: [0x7C01] comes back as [0x7E00]. *)
Example half_roundtrip_nan_payload :
  half_isnan 0x7C01 = true /\ float2half (half2float 0x7C01) = 0x7E00.
Proof. split; reflexivity. Qed.

(** ** Concrete conversions *)

(** The literals of the source, as patterns. *)
Example float_literals :
  f32_zero = 0x00000000 /\ f32_neg_zero = 0x80000000 /\
  f32_one = 0x3F800000 /\ f32_65520 = 0x477FF000 /\ f32_70000 = 0x4788B800.
Proof. repeat split; reflexivity. Qed.

(** C9: [0.0f] encodes to [0x0000], [-0.0f] to [0x8000], [1.0f] to
    [0x3C00], and [0x3C00] decodes to [1.0f]. *)
Theorem half_concrete_cases :
  float2half f32_zero = 0x0000 /\
  float2half f32_neg_zero = 0x8000 /\
  float2half f32_one = 0x3C00 /\
  half2float 0x3C00 = f32_one.
Proof. repeat split; vm_compute; reflexivity. Qed.

(** C3, as the specification states it, fails: [65520.0f] does not encode
    to a finite f16 pattern. *)
Lemma float2half_65520_not_finite :
  ~ (half_isfinite (float2half f32_65520) = true /\
     float2half f32_70000 = 0x7C00).
Proof. intros [H _]. vm_compute in H. discriminate H. Qed.

(** C3, amended: [65520.0f] is halfway from the largest finite f16 value
    65504 to 2^16 and encodes to Infinity [0x7C00], as [70000.0f] does;
    the binary32 value just below [65520.0f] still encodes to [0x7BFF]. *)
Theorem float2half_near_max :
  float2half f32_65520 = 0x7C00 /\
  float2half f32_70000 = 0x7C00 /\
  float2half (f32_65520 - 1) = 0x7BFF.
Proof. repeat split; vm_compute; reflexivity. Qed.

(** ** Ties go to the even neighbour *)

Module TieFacts.

Lemma nearest_even_range (h b : Z) : 0 <= h < b -> 0 <= nearest_even h <= b.
Proof. unfold nearest_even. destruct (Z.even h); lia. Qed.

(** The pattern halfway between [h] and [h + 1], and what it encodes to
    under either sign. *)
Lemma half_tie_spec (h : Z) :
  0 <= h < 0x7c00 ->
  0 <= half_tie h /\
  2 * scaled 23 (half_tie h) = 2 ^ 125 * (scaled 10 h + scaled 10 (h + 1)) /\
  float2half (half_tie h) = nearest_even h /\
  float2half (half_tie h + 2 ^ 31) = nearest_even h + 0x8000.
Proof.
  intros Hh.
  assert (Hall : all_bits 15 0 half_tie_check = true) by (vm_compute; reflexivity).
  pose proof (BitFacts.all_u15 half_tie_check Hall h ltac:(lia)) as Hc.
  unfold half_tie_check in Hc.
  rewrite (proj2 (Z.ltb_lt h 0x7c00)) in Hc by lia.
  split_checks Hc.
  apply Z.leb_le in Hc. apply Z.eqb_eq in C, C0, C1.
  rewrite Z.shiftl_mul_pow2 in C1 by lia.
  repeat split; try assumption. lia.
Qed.

(** The halfway pattern above a bf16 magnitude is the magnitude followed
    by a one and fifteen zeros. *)
Lemma bfloat_tie_value (h : Z) :
  0 <= h ->
  2 * scaled 23 (bfloat_tie h) = 2 ^ 16 * (scaled 7 h + scaled 7 (h + 1)).
Proof.
  intros Hh. unfold bfloat_tie. rewrite Z.shiftl_mul_pow2 by lia.
  rewrite Z.mul_add_distr_l, <- !Values.scaled_shift16 by lia.
  replace ((h + 1) * 2 ^ 16) with (h * 2 ^ 16 + 2 ^ 16) by ring.
  assert (Hr : (h * 2 ^ 16) mod 2 ^ 23 = h mod 2 ^ 7 * 2 ^ 16).
  { change (2 ^ 23) with (2 ^ 7 * 2 ^ 16). apply Z.mul_mod_distr_r; lia. }
  pose proof (Z.mod_pos_bound h (2 ^ 7) ltac:(lia)) as Hm.
  rewrite !(Scaled.scaled_add 23) by lia. lia.
Qed.

(** The rounding bias of [float2bfloat] on a halfway pattern of either
    sign ([sg] is the sign bit). *)
Lemma float2bfloat_tie (h sg : Z) :
  0 <= h < 0x7f80 -> sg = 0 \/ sg = 2 ^ 31 ->
  float2bfloat (bfloat_tie h + sg) = nearest_even h + sg / 2 ^ 16.
Proof.
  intros Hh Hsg. unfold bfloat_tie, float2bfloat, nearest_even.
  rewrite Z.shiftl_mul_pow2 by lia.
  assert (Hnan : F32.isnan (h * 2 ^ 16 + 0x8000 + sg) = false).
  { unfold F32.isnan. fold (magnitude (h * 2 ^ 16 + 0x8000 + sg)).
    rewrite F32Facts.magnitude_spec. apply Z.ltb_ge.
    change (2 ^ 16) with 65536. change (2 ^ 31) with 2147483648 in *.
    destruct Hsg as [-> | ->]; Z.to_euclidean_division_equations; lia. }
  rewrite Hnan. cbv zeta. unfold kF32BfMantiBitDiff.
  rewrite BitFacts.u16_mod, BitFacts.u32_mod.
  rewrite BitFacts.land_1, !Z.shiftr_div_pow2 by lia.
  pose proof (Zmod_even h) as Hev.
  change (2 ^ 16) with 65536. change (2 ^ 32) with 4294967296.
  change (2 ^ 31) with 2147483648 in *.
  destruct (Z.even h), Hsg as [-> | ->];
    Z.to_euclidean_division_equations; lia.
Qed.

Lemma bfloat_tie_spec (h : Z) :
  0 <= h < 0x7f80 ->
  2 * scaled 23 (bfloat_tie h) = 2 ^ 16 * (scaled 7 h + scaled 7 (h + 1)) /\
  float2bfloat (bfloat_tie h) = nearest_even h /\
  float2bfloat (bfloat_tie h + 2 ^ 31) = nearest_even h + 0x8000.
Proof.
  intros Hh. split; [apply bfloat_tie_value; lia | split].
  - rewrite <- (Z.add_0_r (bfloat_tie h)), <- (Z.add_0_r (nearest_even h)).
    apply (float2bfloat_tie h 0); [lia | now left].
  - apply (float2bfloat_tie h (2 ^ 31)); [lia | now right].
Qed.

(** An encoder that agrees on a magnitude under both signs agrees on
    every pattern of that magnitude. *)
Lemma by_sign (enc : Z -> Z) (x t r : Z) :
  is_u32 x -> magnitude x = t -> 0 <= r < 2 ^ 15 ->
  enc t = r -> enc (t + 2 ^ 31) = r + 0x8000 ->
  enc x = Z.lor r (sign16 x).
Proof.
  intros Hx Hm Hr E0 E1.
  rewrite F32Facts.lor_sign16 by assumption.
  pose proof (F32Facts.sign_magnitude x Hx) as Esm. rewrite Hm in Esm.
  destruct (F32.signbit x); rewrite Esm at 1.
  - exact E1.
  - now rewrite !Z.add_0_r.
Qed.

End TieFacts.

(** C6: a binary32 value exactly halfway between two adjacent magnitudes
    [h] and [h + 1] of the 16-bit format encodes to the even one of the
    two, with its sign: down to [h] when [h] is even, up to [h + 1] when
    [h] is odd.  This holds for [float2half] and for [float2bfloat]; the
    upper neighbour of the largest finite magnitude is Infinity. *)
Theorem ties_to_even (x h : Z) :
  is_u32 x ->
  (0 <= h < 0x7c00 -> halfway_half x h ->
     float2half x = Z.lor (nearest_even h) (sign16 x)) /\
  (0 <= h < 0x7f80 -> halfway_bfloat x h ->
     float2bfloat x = Z.lor (nearest_even h) (sign16 x)).
Proof.
  intros Hx. split; intros Hh Hhalf.
  - destruct (TieFacts.half_tie_spec h Hh) as (Hpos & Hval & E0 & E1).
    apply TieFacts.by_sign with (t := half_tie h); try assumption.
    + apply (Scaled.scaled_inj 23); try lia.
      * apply F32Facts.magnitude_range.
      * unfold halfway_half in Hhalf. lia.
    + pose proof (TieFacts.nearest_even_range h 0x7c00 Hh). lia.
  - destruct (TieFacts.bfloat_tie_spec h Hh) as (Hval & E0 & E1).
    apply TieFacts.by_sign with (t := bfloat_tie h); try assumption.
    + apply (Scaled.scaled_inj 23); try lia.
      * apply F32Facts.magnitude_range.
      * unfold bfloat_tie. rewrite Z.shiftl_mul_pow2; lia.
      * unfold halfway_bfloat in Hhalf. lia.
    + pose proof (TieFacts.nearest_even_range h 0x7f80 Hh). lia.
Qed.

(** Explicit halfway patterns: above 1.0 (even mantissa, rounds down) and
    above the next value (odd mantissa, rounds up), for both formats. *)
Lemma ties_to_even_witness :
  float2half 0x3F801000 = 0x3C00 /\ float2half 0x3F803000 = 0x3C02 /\
  float2bfloat 0x3F808000 = 0x3F80 /\ float2bfloat 0x3F818000 = 0x3F82.
Proof.
  split; [|split; [|split]].
  - apply (proj1 (ties_to_even 0x3F801000 0x3C00 ltac:(unfold is_u32; lia)));
      [lia | reflexivity].
  - apply (proj1 (ties_to_even 0x3F803000 0x3C01 ltac:(unfold is_u32; lia)));
      [lia | reflexivity].
  - apply (proj2 (ties_to_even 0x3F808000 0x3F80 ltac:(unfold is_u32; lia)));
      [lia | reflexivity].
  - apply (proj2 (ties_to_even 0x3F818000 0x3F81 ltac:(unfold is_u32; lia)));
      [lia | reflexivity].
Defined.

(** ** The truncation shims *)

(** Both shims return the 16 bits of [float2bfloat] in the low bytes of a
    carrier that is otherwise zero. *)
Lemma truncsfbf2_bits (t : Target) (f : Z) :
  truncsfbf2 t f = float2bfloat f.
Proof. unfold truncsfbf2, memcpy_u16. now rewrite Z.land_0_l, Z.lor_0_l. Qed.

(** The two roundings show at the rounding boundaries of binary32.  The
    double 1 + 2^-7 + 2^-8 - 2^-24 is exactly halfway between two binary32
    values and narrows to the even one, [0x3F818000]; that is halfway
    between the bf16 values [0x3F81] and [0x3F82] and goes up to the even
    [0x3F82], where a single rounding of the double gives [0x3F81]. *)
Example truncdfbf2_double_rounding_tie :
  F64.to_float 0x3FF02FFFF0000000 = 0x3F818000 /\
  truncdfbf2 X86_64 0x3FF02FFFF0000000 = 0x3F82 /\
  truncdfbf2 OtherTarget 0x3FF02FFFF0000000 = 0x3F82 /\
  double2bfloat_direct 0x3FF02FFFF0000000 = 0x3F81.
Proof. split; [|split; [|split]]; vm_compute; reflexivity. Qed.

(** The double 1 + 2^-8 + 2^-30 is above the halfway point between the
    bf16 values [0x3F80] and [0x3F81]; it narrows down to that halfway
    point and from there to the even [0x3F80], where a single rounding
    gives [0x3F81]. *)
Example truncdfbf2_double_rounding :
  F64.to_float 0x3FF0100000400000 = 0x3F808000 /\
  truncdfbf2 X86_64 0x3FF0100000400000 = 0x3F80 /\
  truncdfbf2 OtherTarget 0x3FF0100000400000 = 0x3F80 /\
  double2bfloat_direct 0x3FF0100000400000 = 0x3F81.
Proof. split; [|split; [|split]]; vm_compute; reflexivity. Qed.

(** * The codec on all inputs *)

Module Rne.

Lemma rne_spec (k v : Z) :
  1 <= k ->
  rne_shift k v =
    if v mod 2 ^ k <? 2 ^ (k - 1) then v / 2 ^ k
    else if 2 ^ (k - 1) <? v mod 2 ^ k then v / 2 ^ k + 1
    else nearest_even (v / 2 ^ k).
Proof.
  intros Hk. unfold rne_shift.
  rewrite Z.shiftr_div_pow2, Z.land_ones, Z.shiftl_mul_pow2 by lia.
  now rewrite Z.mul_1_l.
Qed.

(** The rounded quotient is the floor or the floor plus one. *)
Lemma rne_bounds (k v : Z) :
  1 <= k -> v / 2 ^ k <= rne_shift k v <= v / 2 ^ k + 1.
Proof.
  intros Hk. rewrite rne_spec by assumption. unfold nearest_even.
  destruct (_ <? _); [lia|]. destruct (_ <? _); [lia|].
  destruct (Z.even _); lia.
Qed.

(** Rounding keeps the order. *)
Lemma rne_mono (k v w : Z) :
  1 <= k -> v <= w -> rne_shift k v <= rne_shift k w.
Proof.
  intros Hk Hvw. rewrite !rne_spec by assumption.
  assert (HP : 0 < 2 ^ (k - 1)) by (apply Z.pow_pos_nonneg; lia).
  assert (E2 : 2 ^ k = 2 * 2 ^ (k - 1)).
  { replace k with (Z.succ (k - 1)) at 1 by lia. apply Z.pow_succ_r. lia. }
  pose proof (Z.div_mod v (2 ^ k) ltac:(lia)) as Ev.
  pose proof (Z.div_mod w (2 ^ k) ltac:(lia)) as Ew.
  pose proof (Z.mod_pos_bound v (2 ^ k) ltac:(lia)) as Bv.
  pose proof (Z.mod_pos_bound w (2 ^ k) ltac:(lia)) as Bw.
  assert (Hq : v / 2 ^ k <= w / 2 ^ k) by (apply Z.div_le_mono; lia).
  set (P := 2 ^ k) in *. set (H := 2 ^ (k - 1)) in *.
  set (qv := v / P) in *. set (qw := w / P) in *.
  set (rv := v mod P) in *. set (rw := w mod P) in *.
  unfold nearest_even.
  destruct (Z.eq_dec qv qw) as [Eq|Ne].
  - rewrite <- Eq in *. assert (rv <= rw) by nia.
    destruct (Z.ltb_spec rv H), (Z.ltb_spec rw H); try lia;
      destruct (Z.ltb_spec H rv), (Z.ltb_spec H rw); try lia;
      destruct (Z.even qv); lia.
  - destruct (Z.ltb_spec rv H), (Z.ltb_spec rw H);
      destruct (Z.ltb_spec H rv), (Z.ltb_spec H rw);
      destruct (Z.even qv), (Z.even qw); lia.
Qed.

End Rne.

Module BfloatEnc.

(** On everything but a NaN, [float2bfloat] is the magnitude divided by
    2^16, rounded to nearest even, with the sign. *)
Lemma float2bfloat_rne (x : Z) :
  is_u32 x -> F32.isnan x = false ->
  float2bfloat x = Z.lor (rne_shift 16 (magnitude x)) (sign16 x) /\
  rne_shift 16 (magnitude x) <= 0x7f80.
Proof.
  intros Hx Hnan.
  assert (Hhi : magnitude x <= 0x7F800000).
  { unfold F32.isnan in Hnan. fold (magnitude x) in Hnan.
    now apply Z.ltb_ge in Hnan. }
  pose proof (F32Facts.magnitude_range x) as Hlo.
  pose proof (F32Facts.sign_magnitude x Hx) as Esm.
  pose proof (Rne.rne_bounds 16 (magnitude x) ltac:(lia)) as Hb.
  assert (Htop : rne_shift 16 (magnitude x) <= 0x7f80).
  { rewrite Rne.rne_spec in * by lia. unfold nearest_even in *.
    pose proof (Zmod_even (magnitude x / 2 ^ 16)) as Hev.
    change (2 ^ (16 - 1)) with 32768 in *. change (2 ^ 16) with 65536 in *.
    destruct (Z.ltb_spec (magnitude x mod 65536) 32768); [|
      destruct (Z.ltb_spec 32768 (magnitude x mod 65536)); [|
        destruct (Z.even (magnitude x / 65536))]];
      Z.to_euclidean_division_equations; lia. }
  split; [|exact Htop].
  rewrite F32Facts.lor_sign16
    by (split; [|lia]; assert (0 <= magnitude x / 2 ^ 16) by (apply Z.div_pos; lia); lia).
  unfold float2bfloat. rewrite Hnan. cbv zeta. unfold kF32BfMantiBitDiff.
  rewrite BitFacts.u16_mod, BitFacts.u32_mod.
  rewrite BitFacts.land_1, !Z.shiftr_div_pow2 by lia.
  rewrite Rne.rne_spec by lia. unfold nearest_even.
  pose proof (Zmod_even (magnitude x / 2 ^ 16)) as Hev.
  set (mg := magnitude x) in *.
  change (2 ^ (16 - 1)) with 32768 in *. change (2 ^ 16) with 65536 in *.
  change (2 ^ 32) with 4294967296. change (2 ^ 31) with 2147483648 in *.
  destruct (F32.signbit x);
    (destruct (Z.ltb_spec (mg mod 65536) 32768); [|
      destruct (Z.ltb_spec 32768 (mg mod 65536)); [|
        destruct (Z.even (mg / 65536))]]);
      Z.to_euclidean_division_equations; lia.
Qed.

End BfloatEnc.

Module Sign16.

(** A 15-bit magnitude with a sign attached: the parts can be read back. *)
Lemma parts (r x : Z) :
  0 <= r < 2 ^ 15 ->
  Z.land (Z.lor r (sign16 x)) 0x7fff = r /\
  Z.testbit (Z.lor r (sign16 x)) 15 = F32.signbit x /\
  is_u16 (Z.lor r (sign16 x)).
Proof.
  intros Hr. rewrite F32Facts.lor_sign16 by assumption.
  change 0x7fff with (Z.ones 15). rewrite Z.land_ones by lia.
  unfold is_u16. change (2 ^ 15) with 32768 in *. change (2 ^ 16) with 65536.
  destruct (F32.signbit x); (split; [|split]).
  - symmetry. apply Z.mod_unique with (q := 1); lia.
  - rewrite (BitFacts.testbit_top _ 15) by (change (2 ^ (15 + 1)) with 65536; lia).
    apply Z.leb_le. change (2 ^ 15) with 32768. lia.
  - lia.
  - rewrite Z.add_0_r. apply Z.mod_small. lia.
  - rewrite (BitFacts.testbit_top _ 15) by (change (2 ^ (15 + 1)) with 65536; lia).
    apply Z.leb_gt. change (2 ^ 15) with 32768. lia.
  - lia.
Qed.

End Sign16.

Module RneValue.

(** An exact multiple rounds to its quotient. *)
Lemma rne_exact (k a : Z) : 1 <= k -> rne_shift k (a * 2 ^ k) = a.
Proof.
  intros Hk. rewrite Rne.rne_spec by assumption.
  assert (0 < 2 ^ k) by (apply Z.pow_pos_nonneg; lia).
  assert (0 < 2 ^ (k - 1)) by (apply Z.pow_pos_nonneg; lia).
  rewrite Z.mod_mul, Z.div_mul by lia.
  destruct (Z.ltb_spec 0 (2 ^ (k - 1))); [reflexivity | lia].
Qed.

(** Adding a multiple of the divisor adds to the rounded quotient, when
    the multiple is even. *)
Lemma rne_add_even (k v a : Z) :
  1 <= k -> Z.even a = true ->
  rne_shift k (v + a * 2 ^ k) = rne_shift k v + a.
Proof.
  intros Hk Ha. rewrite !Rne.rne_spec by assumption.
  assert (0 < 2 ^ k) by (apply Z.pow_pos_nonneg; lia).
  rewrite Z.mod_add, Z.div_add by lia.
  unfold nearest_even. rewrite Z.even_add, Ha.
  destruct (_ <? _); [reflexivity|]. destruct (_ <? _); [lia|].
  destruct (Z.even (v / 2 ^ k)); simpl; lia.
Qed.

(** Among the multiples of [2^k], the rounded one is nearest. *)
Lemma rne_nearest (k v g : Z) :
  1 <= k ->
  Z.abs (v - rne_shift k v * 2 ^ k) <= Z.abs (v - g * 2 ^ k).
Proof.
  intros Hk. rewrite Rne.rne_spec by assumption.
  assert (HP : 0 < 2 ^ (k - 1)) by (apply Z.pow_pos_nonneg; lia).
  assert (E2 : 2 ^ k = 2 * 2 ^ (k - 1)).
  { replace k with (Z.succ (k - 1)) at 1 by lia. apply Z.pow_succ_r. lia. }
  pose proof (Z.div_mod v (2 ^ k) ltac:(lia)) as Ev.
  pose proof (Z.mod_pos_bound v (2 ^ k) ltac:(lia)) as Bv.
  set (P := 2 ^ k) in *. set (H := 2 ^ (k - 1)) in *.
  set (q := v / P) in *. set (r := v mod P) in *.
  unfold nearest_even.
  assert (Hg : g <= q \/ q + 1 <= g) by lia.
  destruct (Z.ltb_spec r H); [|destruct (Z.ltb_spec H r); [|destruct (Z.even q)]];
    destruct Hg; nia.
Qed.

Lemma spacing_pos (x : Z) : 0 <= x -> 0 < spacing 23 x.
Proof.
  intros Hx. rewrite Scaled.spacing_spec by lia.
  assert (0 <= x / 2 ^ 23) by (apply Z.div_pos; lia).
  destruct (Z.eqb_spec (x / 2 ^ 23) 0); [lia|].
  apply Z.pow_pos_nonneg; lia.
Qed.

Lemma scaled_le (x y : Z) : 0 <= x <= y -> scaled 23 x <= scaled 23 y.
Proof.
  intros Hxy. destruct (Z.eq_dec x y) as [->|Hne]; [lia|].
  pose proof (Scaled.scaled_lt 23 ltac:(lia) x y ltac:(lia)). lia.
Qed.

(** Among the binary32 patterns that are multiples of [2^k], the rounded
    one is nearest in magnitude. *)
Lemma nearest_pattern (k v g : Z) :
  1 <= k <= 23 -> 0 <= v -> 0 <= g ->
  Z.abs (scaled 23 v - scaled 23 (rne_shift k v * 2 ^ k))
  <= Z.abs (scaled 23 v - scaled 23 (g * 2 ^ k)).
Proof.
  intros Hk Hv Hg. rewrite Rne.rne_spec by lia.
  assert (HP : 0 < 2 ^ (k - 1)) by (apply Z.pow_pos_nonneg; lia).
  assert (E2 : 2 ^ k = 2 * 2 ^ (k - 1)).
  { replace k with (Z.succ (k - 1)) at 1 by lia. apply Z.pow_succ_r. lia. }
  pose proof (Z.div_mod v (2 ^ k) ltac:(lia)) as Ev.
  pose proof (Z.mod_pos_bound v (2 ^ k) ltac:(lia)) as Bv.
  assert (Hq : 0 <= v / 2 ^ k) by (apply Z.div_pos; lia).
  assert (E23 : 2 ^ 23 = 2 ^ (23 - k) * 2 ^ k)
    by (rewrite <- Z.pow_add_r by lia; f_equal; lia).
  assert (HQ : 0 < 2 ^ (23 - k)) by (apply Z.pow_pos_nonneg; lia).
  set (P := 2 ^ k) in *. set (H := 2 ^ (k - 1)) in *.
  set (q := v / P) in *. set (r := v mod P) in *.
  (* the block of patterns from [q * P] up to [(q + 1) * P] *)
  assert (Hfit : (q * P) mod 2 ^ 23 + P <= 2 ^ 23).
  { rewrite E23, Z.mul_mod_distr_r by lia.
    pose proof (Z.mod_pos_bound q (2 ^ (23 - k)) HQ). nia. }
  pose proof (Scaled.scaled_add 23 ltac:(lia) (q * P) r ltac:(nia) ltac:(lia) ltac:(lia)) as Sv.
  pose proof (Scaled.scaled_add 23 ltac:(lia) (q * P) P ltac:(nia) ltac:(lia) ltac:(lia)) as Sn.
  replace (q * P + r) with v in Sv by lia.
  replace (q * P + P) with ((q + 1) * P) in Sn by ring.
  assert (Hsp : 0 < spacing 23 (q * P)) by (apply spacing_pos; nia).
  assert (Hle : g <= q -> scaled 23 (g * P) <= scaled 23 (q * P)).
  { intros Hgq. apply scaled_le; nia. }
  assert (Hge : q + 1 <= g -> scaled 23 ((q + 1) * P) <= scaled 23 (g * P)).
  { intros Hgq. apply scaled_le; nia. }
  unfold nearest_even.
  assert (Hcase : g <= q \/ q + 1 <= g) by lia.
  remember (scaled 23 (g * P)) as SG eqn:ESG.
  remember (scaled 23 (q * P)) as SA eqn:ESA.
  remember (scaled 23 ((q + 1) * P)) as SN eqn:ESN.
  remember (spacing 23 (q * P)) as sp eqn:Esp.
  rewrite Sv. clear Sv ESG Esp.
  destruct (Z.ltb_spec r H); [|destruct (Z.ltb_spec H r); [|destruct (Z.even q)]];
    rewrite <- ?ESA, <- ?ESN; clear ESA ESN;
    destruct Hcase as [Hc|Hc];
    [specialize (Hle Hc) | specialize (Hge Hc) | specialize (Hle Hc)
    | specialize (Hge Hc) | specialize (Hle Hc) | specialize (Hge Hc)
    | specialize (Hle Hc) | specialize (Hge Hc)]; nia.
Qed.

End RneValue.

Module SFFacts.

Lemma iter_pos_nat {A : Type} (f : A -> A) (p : positive) :
  forall x, iter_pos f p x = Nat.iter (Pos.to_nat p) f x.
Proof.
  induction p as [p IH|p IH|]; intros x; cbn [iter_pos].
  - rewrite !IH, Pos2Nat.inj_xI, <- Nat.iter_succ_r.
    replace (S (2 * Pos.to_nat p)) with (Pos.to_nat p + S (Pos.to_nat p))%nat
      by lia.
    now rewrite Nat.iter_add.
  - rewrite !IH, Pos2Nat.inj_xO.
    replace (2 * Pos.to_nat p)%nat with (Pos.to_nat p + Pos.to_nat p)%nat
      by lia.
    now rewrite Nat.iter_add.
  - reflexivity.
Qed.

Lemma shr_1_spec (m : Z) (r s : bool) :
  0 <= m ->
  shr_1 (Build_shr_record m r s) = Build_shr_record (Z.div2 m) (Z.odd m) (r || s).
Proof.
  intros Hm. destruct m as [|[p|p|]|p]; try reflexivity. lia.
Qed.

(** Shifting right by [n] bits keeps the quotient, whether the remainder
    reaches half of [2^n], and whether it is something else than zero or
    that half. *)
Lemma shr_iter (m0 : Z) (n : nat) :
  0 <= m0 ->
  let rem := m0 mod 2 ^ Z.of_nat n in
  Nat.iter n shr_1 (Build_shr_record m0 false false) =
    Build_shr_record (m0 / 2 ^ Z.of_nat n)
      (2 ^ Z.of_nat n <=? 2 * rem)
      (negb ((rem =? 0) || (2 * rem =? 2 ^ Z.of_nat n))).
Proof.
  intros Hm0. induction n as [|n IH]; cbv zeta in *.
  - change (Nat.iter 0 shr_1 ?x) with x. change (2 ^ Z.of_nat 0) with 1.
    rewrite Z.div_1_r, Z.mod_1_r. reflexivity.
  - rewrite Nat.iter_succ, IH. clear IH.
    rewrite Nat2Z.inj_succ, Z.pow_succ_r by lia.
    set (P := 2 ^ Z.of_nat n).
    assert (HP : 0 < P) by (apply Z.pow_pos_nonneg; lia).
    rewrite shr_1_spec by (apply Z.div_pos; lia).
    rewrite Z.div2_div, Z.div_div by lia.
    rewrite (Z.mul_comm 2 P), Z.rem_mul_r by lia.
    pose proof (Zmod_odd (m0 / P)) as Hodd.
    pose proof (Z.mod_pos_bound m0 P HP) as Hrem.
    set (rem := m0 mod P) in *.
    destruct (Z.odd (m0 / P)); rewrite Hodd; f_equal.
    + symmetry. apply Z.leb_le. lia.
    + destruct (Z.leb_spec P (2 * rem)), (Z.eqb_spec rem 0),
        (Z.eqb_spec (2 * rem) P), (Z.eqb_spec (rem + P * 1) 0),
        (Z.eqb_spec (2 * (rem + P * 1)) (P * 2)); try lia; reflexivity.
    + symmetry. apply Z.leb_gt. lia.
    + destruct (Z.leb_spec P (2 * rem)), (Z.eqb_spec rem 0),
        (Z.eqb_spec (2 * rem) P), (Z.eqb_spec (rem + P * 0) 0),
        (Z.eqb_spec (2 * (rem + P * 0)) (P * 2)); try lia; reflexivity.
Qed.

(** Shifting right and rounding, as [binary_round_aux] does, is
    [rne_shift]. *)
Lemma shr_round (m0 : Z) (d : positive) :
  0 <= m0 ->
  let mrs := iter_pos shr_1 d (Build_shr_record m0 false false) in
  round_nearest_even (shr_m mrs) (loc_of_shr_record mrs)
    = rne_shift (Zpos d) m0.
Proof.
  intros Hm0. cbv zeta. rewrite iter_pos_nat, shr_iter by assumption.
  rewrite positive_nat_Z, Rne.rne_spec by lia.
  assert (HP : 0 < 2 ^ (Zpos d - 1)) by (apply Z.pow_pos_nonneg; lia).
  assert (E2 : 2 ^ Zpos d = 2 * 2 ^ (Zpos d - 1)).
  { replace (Zpos d) with (Z.succ (Zpos d - 1)) at 1 by lia.
    apply Z.pow_succ_r. lia. }
  pose proof (Z.mod_pos_bound m0 (2 ^ Zpos d) ltac:(lia)) as Hrem.
  set (rem := m0 mod 2 ^ Zpos d) in *. set (q := m0 / 2 ^ Zpos d).
  set (P := 2 ^ Zpos d) in *. set (H := 2 ^ (Zpos d - 1)) in *.
  cbn [shr_m]. unfold loc_of_shr_record, round_nearest_even, nearest_even.
  destruct (Z.leb_spec P (2 * rem)), (Z.eqb_spec rem 0),
    (Z.eqb_spec (2 * rem) P), (Z.ltb_spec rem H), (Z.ltb_spec H rem);
    try lia; cbn [negb orb]; try reflexivity.
Qed.

Lemma digits2_size (p : positive) : digits2_pos p = Pos.size p.
Proof. induction p; cbn; congruence. Qed.

(** The number of binary digits of a number between two powers of two. *)
Lemma digits2_bounds (p : positive) (n : Z) :
  2 ^ (n - 1) <= Zpos p < 2 ^ n -> Zpos (digits2_pos p) = n.
Proof.
  intros Hp. rewrite digits2_size.
  pose proof (Pos.size_gt p) as Hgt. pose proof (Pos.size_le p) as Hle.
  apply Pos2Z.pos_lt_pos in Hgt. apply Pos2Z.pos_le_pos in Hle.
  rewrite Pos2Z.inj_pow in Hgt, Hle.
  change (Z.pos p~0) with (2 * Z.pos p) in Hle.
  set (sz := Zpos (Pos.size p)) in *.
  assert (Hsz : 1 <= sz) by (unfold sz; lia).
  assert (Hn : 1 <= n).
  { destruct (Z_lt_le_dec n 1) as [Hlt|]; [|assumption].
    assert (2 ^ n <= 2 ^ 0) by (destruct (Z_lt_le_dec n 0);
      [rewrite Z.pow_neg_r by lia; simpl; lia | apply Z.pow_le_mono_r; lia]).
    simpl in *. lia. }
  assert (E : 2 ^ sz = 2 * 2 ^ (sz - 1)).
  { replace sz with (Z.succ (sz - 1)) at 1 by lia. apply Z.pow_succ_r. lia. }
  destruct (Z.lt_trichotomy sz n) as [Hlt | [Heq | Hgt']]; [|assumption|].
  - assert (2 ^ sz <= 2 ^ (n - 1)) by (apply Z.pow_le_mono_r; lia). lia.
  - assert (2 ^ n <= 2 ^ (sz - 1)) by (apply Z.pow_le_mono_r; lia). lia.
Qed.

Lemma iter_xO (p d : positive) :
  Zpos (Pos.iter xO p d) = Zpos p * 2 ^ Zpos d.
Proof.
  induction d as [|d IH] using Pos.peano_ind.
  - cbn [Pos.iter]. lia.
  - rewrite Pos.iter_succ, Pos2Z.inj_xO, IH, Pos2Z.inj_succ, Z.pow_succ_r by lia.
    ring.
Qed.

(** Adding the magic constant 0.5 to a small positive binary32 value: the
    sum is 0.5 plus the value counted in units of 2^-24, rounded to nearest
    even.  The value is [mx * 2^(-24 - d)]. *)
Lemma add_magic (mx d : positive) :
  14 <= Zpos d -> Zpos mx < 2 ^ 24 ->
  SFadd 24 128 (S754_finite false mx (-24 - Zpos d))
               (S754_finite false 8388608%positive (-24))
  = S754_finite false (Z.to_pos (2 ^ 23 + rne_shift (Zpos d) (Zpos mx))) (-24).
Proof.
  intros Hd Hmx.
  assert (HD : 2 ^ 14 <= 2 ^ Zpos d) by (apply Z.pow_le_mono_r; lia).
  unfold SFadd. rewrite Z.min_l by lia.
  assert (A1 : shl_align mx (-24 - Zpos d) (-24 - Zpos d) = (mx, -24 - Zpos d)).
  { unfold shl_align. now rewrite Z.sub_diag. }
  assert (A2 : shl_align 8388608%positive (-24) (-24 - Zpos d)
               = (Pos.iter xO 8388608%positive d, -24 - Zpos d)).
  { unfold shl_align. now replace (-24 - Zpos d - -24) with (Zneg d) by lia. }
  rewrite A1, A2. cbn [fst cond_Zopp].
  change (Zpos mx + Zpos (Pos.iter xO 8388608%positive d))
    with (Zpos (mx + Pos.iter xO 8388608%positive d)).
  set (M := (mx + Pos.iter xO 8388608%positive d)%positive).
  assert (HM : Zpos M = Zpos mx + 2 ^ 23 * 2 ^ Zpos d).
  { unfold M. rewrite Pos2Z.inj_add, iter_xO. reflexivity. }
  assert (DM : Zpos (digits2_pos M) = 24 + Zpos d).
  { apply digits2_bounds.
    replace (24 + Zpos d - 1) with (23 + Zpos d) by lia.
    rewrite !Z.pow_add_r by lia. change (2 ^ 24) with (2 * 2 ^ 23) in *. nia. }
  cbn [binary_normalize]. unfold binary_round.
  rewrite DM. replace (24 + Zpos d + (-24 - Zpos d)) with 0 by lia.
  change (fexp 24 128 0) with (-24).
  assert (A3 : shl_align M (-24 - Zpos d) (-24) = (M, -24 - Zpos d)).
  { unfold shl_align. now replace (-24 - (-24 - Zpos d)) with (Zpos d) by lia. }
  rewrite A3. unfold binary_round_aux.
  assert (A4 : shr_fexp 24 128 (Zpos M) (-24 - Zpos d) loc_Exact
               = (iter_pos shr_1 d (Build_shr_record (Zpos M) false false), -24)).
  { unfold shr_fexp. cbn [Zdigits2 shr_record_of_loc]. rewrite DM.
    replace (24 + Zpos d + (-24 - Zpos d)) with 0 by lia.
    change (fexp 24 128 0) with (-24).
    replace (-24 - (-24 - Zpos d)) with (Zpos d) by lia.
    unfold shr. f_equal. lia. }
  rewrite A4, shr_round by lia.
  assert (ER : rne_shift (Zpos d) (Zpos M) = rne_shift (Zpos d) (Zpos mx) + 2 ^ 23).
  { rewrite HM. apply RneValue.rne_add_even; [lia | reflexivity]. }
  rewrite ER. clear ER.
  pose proof (Rne.rne_bounds (Zpos d) (Zpos mx) ltac:(lia)) as HR.
  assert (Hq : 0 <= Zpos mx / 2 ^ Zpos d <= 1024).
  { split; [apply Z.div_pos; lia|].
    apply Z.div_le_upper_bound; [lia|]. change (2 ^ 24) with 16777216 in *.
    change (2 ^ 14) with 16384 in *. nia. }
  set (R := rne_shift (Zpos d) (Zpos mx)) in *.
  rewrite (Z.add_comm (2 ^ 23) R).
  destruct (R + 2 ^ 23) as [|p1|p1] eqn:E1; try (change (2 ^ 23) with 8388608 in *; lia).
  assert (D1 : Zpos (digits2_pos p1) = 24).
  { apply digits2_bounds. rewrite <- E1.
    change (2 ^ (24 - 1)) with 8388608. change (2 ^ 23) with 8388608.
    change (2 ^ 24) with 16777216. lia. }
  assert (A5 : shr_fexp 24 128 (Zpos p1) (-24) loc_Exact
               = (Build_shr_record (Zpos p1) false false, -24)).
  { unfold shr_fexp. cbn [Zdigits2 shr_record_of_loc]. rewrite D1. reflexivity. }
  rewrite A5. reflexivity.
Qed.

End SFFacts.

Module HalfEnc.

Lemma rne_scale (k j v : Z) :
  1 <= k -> 0 <= j -> rne_shift (k + j) (v * 2 ^ j) = rne_shift k v.
Proof.
  intros Hk Hj. rewrite !Rne.rne_spec by lia.
  assert (Hpj : 0 < 2 ^ j) by (apply Z.pow_pos_nonneg; lia).
  assert (Hpk : 0 < 2 ^ k) by (apply Z.pow_pos_nonneg; lia).
  assert (Hph : 0 < 2 ^ (k - 1)) by (apply Z.pow_pos_nonneg; lia).
  replace (k + j - 1) with (k - 1 + j) by lia.
  rewrite !Z.pow_add_r by lia.
  rewrite Z.mul_mod_distr_r, Z.div_mul_cancel_r by lia.
  set (r := v mod 2 ^ k). set (H := 2 ^ (k - 1)) in *. set (J := 2 ^ j) in *.
  destruct (Z.ltb_spec r H), (Z.ltb_spec (r * J) (H * J)); try nia;
    try reflexivity.
  destruct (Z.ltb_spec H r), (Z.ltb_spec (H * J) (r * J)); try nia;
    reflexivity.
Qed.

(** The value a sign-less binary32 pattern denotes. *)
Lemma of_bits_magnitude (fu : Z) :
  0 <= fu < 2 ^ 31 ->
  F32.of_bits fu = IEEE.decode 23 8 false (fu / 2 ^ 23) (fu mod 2 ^ 23).
Proof.
  intros Hfu. unfold F32.of_bits, IEEE.of_bits.
  rewrite F32Class.expo_spec, F32Class.mant_spec.
  assert (Hs : IEEE.sign_of 23 8 fu = false).
  { change (IEEE.sign_of 23 8 fu) with (Z.testbit fu 31).
    rewrite (BitFacts.testbit_top fu 31) by (change (2 ^ (31 + 1)) with (2 * 2 ^ 31); lia).
    apply Z.leb_gt. lia. }
  rewrite Hs. f_equal. apply Z.mod_small.
  split; [apply Z.div_pos; lia|].
  apply Z.div_lt_upper_bound; [lia|]. change (2 ^ 23 * 2 ^ 8) with (2 ^ 31). lia.
Qed.

(** The bits of 0.5 plus a small value, less the bits of 0.5. *)
Lemma add_magic_bits (mx d : positive) :
  14 <= Zpos d -> Zpos mx < 2 ^ 24 ->
  F32.to_bits (SFadd 24 128 (S754_finite false mx (-24 - Zpos d))
                            (S754_finite false 8388608 (-24)))
  = 0x3f000000 + rne_shift (Zpos d) (Zpos mx) /\
  0 <= rne_shift (Zpos d) (Zpos mx) <= 0x400.
Proof.
  intros Hd Hmx. rewrite SFFacts.add_magic by assumption.
  assert (HD : 2 ^ 14 <= 2 ^ Zpos d) by (apply Z.pow_le_mono_r; lia).
  pose proof (Rne.rne_bounds (Zpos d) (Zpos mx) ltac:(lia)) as HR.
  assert (Hq : 0 <= Zpos mx / 2 ^ Zpos d <= 1023).
  { split; [apply Z.div_pos; lia|].
    assert (Zpos mx / 2 ^ Zpos d < 1024); [|lia].
    apply Z.div_lt_upper_bound; [lia|]. change (2 ^ 24) with 16777216 in *.
    change (2 ^ 14) with 16384 in *. nia. }
  set (R := rne_shift (Zpos d) (Zpos mx)) in *.
  split; [|lia].
  unfold F32.to_bits, IEEE.to_bits.
  rewrite Z2Pos.id by (change (2 ^ 23) with 8388608; lia).
  change (2 ^ 23) with 8388608.
  destruct (Z.ltb_spec (8388608 + R) 8388608); [lia|].
  change (IEEE.sign_bit 23 8 false) with 0. change (IEEE.bias 8) with 127.
  change (Z.shiftl (-24 + 127 + 23) 23) with 1056964608. lia.
Qed.

(** Below the smallest normal f16 value, [float2half] is the magnitude
    counted in units of 2^-24, rounded to nearest even, with the sign. *)
Lemma float2half_small (x : Z) :
  is_u32 x -> magnitude x < kF32Magic ->
  float2half x = Z.lor (rne_shift 125 (scaled 23 (magnitude x))) (sign16 x) /\
  0 <= rne_shift 125 (scaled 23 (magnitude x)) <= 0x400.
Proof.
  intros Hx Hsmall.
  pose proof (F32Facts.magnitude_range x) as Hmag.
  change kF32Magic with 0x38800000 in Hsmall.
  set (fu := magnitude x) in *.
  assert (Hadd : F32.add fu 0x3f000000 = 0x3f000000 + rne_shift 125 (scaled 23 fu)
                 /\ 0 <= rne_shift 125 (scaled 23 fu) <= 0x400).
  { unfold F32.add.
    change (F32.of_bits 0x3f000000) with (S754_finite false 8388608 (-24)).
    rewrite of_bits_magnitude by lia.
    rewrite Scaled.scaled_spec by lia.
    pose proof (Z.div_mod fu (2 ^ 23) ltac:(lia)) as Efu.
    pose proof (Z.mod_pos_bound fu (2 ^ 23) ltac:(lia)) as Hm.
    assert (He : 0 <= fu / 2 ^ 23 <= 112).
    { split; [apply Z.div_pos; lia|].
      assert (fu / 2 ^ 23 < 113); [|lia].
      apply Z.div_lt_upper_bound; [lia|]. change (2 ^ 23 * 113) with 0x38800000. lia. }
    set (e := fu / 2 ^ 23) in *. set (m := fu mod 2 ^ 23) in *.
    clearbody e m. clear Efu.
    unfold IEEE.decode. change (Z.ones 8) with 255.
    change (1 - IEEE.bias 8 - 23) with (-149). change (IEEE.bias 8) with 127.
    destruct (Z.eqb_spec e 0) as [E0|E0].
    - destruct m as [|p|p]; [| |lia].
      + split; [reflexivity | vm_compute; split; discriminate].
      + change (-149) with (-24 - Zpos 125).
        apply add_magic_bits; [lia|]. change (2 ^ 23) with 8388608 in Hm.
        change (2 ^ 24) with 16777216. lia.
    - destruct (Z.eqb_spec e 255); [lia|].
      destruct (m + 2 ^ 23) as [|p|p] eqn:Ep; try lia.
      replace (2 ^ 23 + m) with (Zpos p) by lia.
      assert (Hd : exists d, e = 126 - Zpos d /\ 14 <= Zpos d).
      { exists (Z.to_pos (126 - e)). rewrite Z2Pos.id by lia. lia. }
      destruct Hd as (d & -> & Hd).
      replace (126 - Zpos d - 127 - 23) with (-24 - Zpos d) by lia.
      replace (126 - Zpos d - 1) with (125 - Zpos d) by lia.
      assert (Esc : rne_shift 125 (Zpos p * 2 ^ (125 - Zpos d))
                    = rne_shift (Zpos d) (Zpos p)).
      { replace 125 with (Zpos d + (125 - Zpos d)) at 1 by lia.
        apply rne_scale; lia. }
      rewrite Esc.
      apply add_magic_bits; [lia|]. change (2 ^ 23) with 8388608 in *.
      change (2 ^ 24) with 16777216. lia. }
  destruct Hadd as [Hadd HR]. split; [|exact HR].
  unfold float2half. cbv zeta.
  rewrite F32Facts.strip_sign, F32Facts.sign_shifted by assumption.
  fold fu. change kF32MantiBits with 23.
  change (Z.shiftl (127 + 16) 23) with 0x47800000.
  change (Z.shiftl (127 - 15 + (23 - 10) + 1) 23) with 0x3f000000.
  change kF32Magic with 0x38800000.
  destruct (Z.leb_spec 0x47800000 fu); [lia|].
  destruct (Z.ltb_spec fu 0x38800000); [|lia].
  rewrite Hadd. f_equal.
  rewrite BitFacts.u16_mod, BitFacts.u32_mod.
  replace (1056964608 + rne_shift 125 (scaled 23 fu) - 1056964608)
    with (rne_shift 125 (scaled 23 fu)) by lia.
  rewrite !Z.mod_small; [reflexivity | | ]; change (2 ^ 32) with 4294967296;
    change (2 ^ 16) with 65536; rewrite ?Z.mod_small; lia.
Qed.

End HalfEnc.

Module HalfEncNormal.

(** In the normal range of f16, [float2half] is the magnitude pattern
    rebased by [112 << 23] and divided by 2^13, rounded to nearest even,
    with the sign. *)
Lemma float2half_normal (x : Z) :
  is_u32 x -> kF32Magic <= magnitude x < 0x47800000 ->
  float2half x = Z.lor (rne_shift 13 (magnitude x - 0x38000000)) (sign16 x) /\
  0x400 <= rne_shift 13 (magnitude x - 0x38000000) <= 0x7c00.
Proof.
  intros Hx Hrange. change kF32Magic with 0x38800000 in Hrange.
  set (fu := magnitude x) in *.
  pose proof (Rne.rne_bounds 13 (fu - 0x38000000) ltac:(lia)) as Hb.
  assert (HR : 0x400 <= rne_shift 13 (fu - 0x38000000) <= 0x7c00).
  { rewrite Rne.rne_spec in * by lia. unfold nearest_even in *.
    pose proof (Zmod_even ((fu - 0x38000000) / 2 ^ 13)) as Hev.
    change (2 ^ (13 - 1)) with 4096 in *. change (2 ^ 13) with 8192 in *.
    destruct (Z.ltb_spec ((fu - 939524096) mod 8192) 4096); [|
      destruct (Z.ltb_spec 4096 ((fu - 939524096) mod 8192)); [|
        destruct (Z.even ((fu - 939524096) / 8192))]];
      Z.to_euclidean_division_equations; lia. }
  split; [|exact HR].
  unfold float2half. cbv zeta.
  rewrite F32Facts.strip_sign, F32Facts.sign_shifted by assumption.
  fold fu. change kF32MantiBits with 23. change kF32HalfMantiBitDiff with 13.
  change (Z.shiftl (127 + 16) 23) with 0x47800000.
  change kF32Magic with 0x38800000.
  destruct (Z.leb_spec 0x47800000 fu); [lia|].
  destruct (Z.ltb_spec fu 0x38800000); [lia|].
  f_equal.
  rewrite BitFacts.u16_mod, !BitFacts.u32_mod.
  rewrite BitFacts.land_1, !Z.shiftr_div_pow2 by lia.
  rewrite Rne.rne_spec by lia. unfold nearest_even.
  pose proof (Zmod_even ((fu - 0x38000000) / 2 ^ 13)) as Hev.
  change (2 ^ (13 - 1)) with 4096 in *. change (2 ^ 13) with 8192 in *.
  change (2 ^ 32) with 4294967296. change (2 ^ 16) with 65536.
  destruct (Z.ltb_spec ((fu - 939524096) mod 8192) 4096); [|
    destruct (Z.ltb_spec 4096 ((fu - 939524096) mod 8192)); [|
      destruct (Z.even ((fu - 939524096) / 8192))]];
    Z.to_euclidean_division_equations; lia.
Qed.

(** From [(127 + 16) << 23] on: Infinity, or the quiet NaN for a NaN. *)
Lemma float2half_large (x : Z) :
  is_u32 x -> 0x47800000 <= magnitude x ->
  float2half x = Z.lor (if F32.isnan x then 0x7e00 else 0x7c00) (sign16 x).
Proof.
  intros Hx Hmag. unfold float2half. cbv zeta.
  rewrite F32Facts.strip_sign, F32Facts.sign_shifted by assumption.
  change kF32MantiBits with 23. change (Z.shiftl (127 + 16) 23) with 0x47800000.
  rewrite (proj2 (Z.leb_le _ _) Hmag).
  unfold F32.isnan. fold (magnitude x). change (Z.shiftl 255 23) with 0x7f800000.
  f_equal. destruct (0x7f800000 <? magnitude x); reflexivity.
Qed.

End HalfEncNormal.

Module HalfRound.

(** [float2half] on every pattern: the rounded magnitude with the sign. *)
Lemma float2half_spec (x : Z) :
  is_u32 x ->
  float2half x = Z.lor (half_round (magnitude x)) (sign16 x) /\
  0 <= half_round (magnitude x) < 2 ^ 15.
Proof.
  intros Hx. unfold half_round.
  destruct (Z.leb_spec 0x47800000 (magnitude x)) as [Hl|Hl].
  - rewrite HalfEncNormal.float2half_large by assumption.
    unfold F32.isnan. fold (magnitude x).
    destruct (0x7f800000 <? magnitude x); (split; [reflexivity | lia]).
  - destruct (Z.ltb_spec (magnitude x) 0x38800000) as [Hs|Hs].
    + destruct (HalfEnc.float2half_small x Hx Hs) as [E B].
      split; [exact E | lia].
    + destruct (HalfEncNormal.float2half_normal x Hx) as [E B];
        [change kF32Magic with 0x38800000; lia|].
      split; [exact E | lia].
Qed.

Lemma scaled_magic : scaled 23 0x38800000 = 1024 * 2 ^ 125.
Proof. reflexivity. Qed.

(** The rounded magnitude grows with the magnitude, up to Infinity. *)
Lemma half_round_mono (a b : Z) :
  0 <= a <= b -> b <= 0x7f800000 -> half_round a <= half_round b.
Proof.
  intros Hab Hb. unfold half_round.
  destruct (Z.leb_spec 0x47800000 a), (Z.leb_spec 0x47800000 b); try lia.
  - destruct (Z.ltb_spec 0x7f800000 a), (Z.ltb_spec 0x7f800000 b); lia.
  - destruct (Z.ltb_spec 0x7f800000 b); [lia|].
    destruct (Z.ltb_spec a 0x38800000).
    + assert (scaled 23 a < 1024 * 2 ^ 125)
        by (rewrite <- scaled_magic; apply Scaled.scaled_lt; lia).
      pose proof (Rne.rne_bounds 125 (scaled 23 a) ltac:(lia)).
      assert (scaled 23 a / 2 ^ 125 < 1024)
        by (apply Z.div_lt_upper_bound; lia).
      lia.
    + pose proof (Rne.rne_mono 13 (a - 0x38000000) (0x477fffff - 0x38000000)
                    ltac:(lia) ltac:(lia)) as Hm.
      change (rne_shift 13 (0x477fffff - 0x38000000)) with 0x7c00 in Hm. lia.
  - destruct (Z.ltb_spec a 0x38800000), (Z.ltb_spec b 0x38800000); try lia.
    + apply Rne.rne_mono; [lia|]. apply RneValue.scaled_le. lia.
    + assert (scaled 23 a < 1024 * 2 ^ 125)
        by (rewrite <- scaled_magic; apply Scaled.scaled_lt; lia).
      pose proof (Rne.rne_bounds 125 (scaled 23 a) ltac:(lia)).
      assert (scaled 23 a / 2 ^ 125 < 1024)
        by (apply Z.div_lt_upper_bound; lia).
      pose proof (Rne.rne_mono 13 (0x38800000 - 0x38000000) (b - 0x38000000)
                    ltac:(lia) ltac:(lia)) as Hm.
      change (rne_shift 13 (0x38800000 - 0x38000000)) with 0x400 in Hm. lia.
    + apply Rne.rne_mono; lia.
Qed.

(** Where the rounded magnitude is zero: up to 2^-25, halfway to the
    smallest subnormal. *)
Lemma half_round_zero (a : Z) :
  0 <= a -> (half_round a = 0 <-> a <= 0x33000000).
Proof.
  intros Ha.
  assert (E0 : half_round 0x33000000 = 0) by (vm_compute; reflexivity).
  assert (E1 : half_round 0x33000001 = 1) by (vm_compute; reflexivity).
  split; intros H.
  - destruct (Z_le_gt_dec a 0x33000000) as [|Hgt]; [assumption|].
    destruct (Z_le_gt_dec a 0x7f800000).
    + pose proof (half_round_mono 0x33000001 a ltac:(lia) ltac:(lia)). lia.
    + unfold half_round in H.
      destruct (Z.leb_spec 0x47800000 a); [|lia].
      destruct (Z.ltb_spec 0x7f800000 a); lia.
  - pose proof (half_round_mono a 0x33000000 ltac:(lia) ltac:(lia)) as Hm.
    assert (0 <= half_round a); [|lia].
    unfold half_round.
    destruct (Z.leb_spec 0x47800000 a); [lia|].
    destruct (Z.ltb_spec a 0x38800000); [|lia].
    pose proof (Rne.rne_bounds 125 (scaled 23 a) ltac:(lia)).
    assert (0 <= scaled 23 a)
      by (change 0 with (scaled 23 0) at 1; apply RneValue.scaled_le; lia).
    assert (0 <= scaled 23 a / 2 ^ 125) by (apply Z.div_pos; lia). lia.
Qed.

(** Where the rounded magnitude is Infinity: from 65520 up to Infinity. *)
Lemma half_round_inf (a : Z) :
  0 <= a -> (half_round a = 0x7c00 <-> 0x477ff000 <= a <= 0x7f800000).
Proof.
  intros Ha.
  assert (E0 : half_round 0x477ff000 = 0x7c00) by (vm_compute; reflexivity).
  assert (E1 : half_round 0x477fefff = 0x7bff) by (vm_compute; reflexivity).
  assert (E2 : half_round 0x7f800000 = 0x7c00) by (vm_compute; reflexivity).
  split; intros H.
  - destruct (Z_le_gt_dec a 0x7f800000).
    + split; [|assumption].
      destruct (Z_le_gt_dec 0x477ff000 a) as [|Hlt]; [assumption|].
      pose proof (half_round_mono a 0x477fefff ltac:(lia) ltac:(lia)). lia.
    + unfold half_round in H.
      destruct (Z.leb_spec 0x47800000 a); [|lia].
      destruct (Z.ltb_spec 0x7f800000 a); lia.
  - pose proof (half_round_mono 0x477ff000 a ltac:(lia) ltac:(lia)).
    pose proof (half_round_mono a 0x7f800000 ltac:(lia) ltac:(lia)). lia.
Qed.

End HalfRound.

Module HalfValue.

(** Up to the first binade of normal values, an f16 magnitude pattern is
    its own count of units of 2^-24. *)
Lemma scaled10_low (h : Z) : 0 <= h < 0x800 -> scaled 10 h = h.
Proof.
  intros Hh. rewrite Scaled.scaled_spec by lia.
  change (2 ^ 10) with 1024.
  destruct (Z.eqb_spec (h / 1024) 0) as [E|E].
  - apply Z.mod_small. Z.to_euclidean_division_equations; lia.
  - assert (E1 : h / 1024 = 1) by (Z.to_euclidean_division_equations; lia).
    rewrite E1. change (2 ^ (1 - 1)) with 1.
    Z.to_euclidean_division_equations; lia.
Qed.

Lemma scaled10_le (a b : Z) : 0 <= a <= b -> scaled 10 a <= scaled 10 b.
Proof.
  intros Hab. destruct (Z.eq_dec a b) as [->|]; [lia|].
  pose proof (Scaled.scaled_lt 10 ltac:(lia) a b ltac:(lia)). lia.
Qed.

(** A normal f16 magnitude [h] and the binary32 pattern of the same
    value, [(h << 13) + (112 << 23)]. *)
Lemma scaled_rebased (h : Z) :
  0x400 <= h ->
  scaled 23 ((h + 0x1C000) * 2 ^ 13) = 2 ^ 125 * scaled 10 h.
Proof.
  intros Hh. rewrite !Scaled.scaled_spec by lia.
  assert (Hd : (h + 0x1C000) * 2 ^ 13 / 2 ^ 23 = h / 2 ^ 10 + 112).
  { change (2 ^ 23) with (2 ^ 13 * 2 ^ 10).
    rewrite <- Z.div_div, Z.div_mul by lia.
    change 0x1C000 with (112 * 2 ^ 10). now rewrite Z.div_add by lia. }
  assert (Hr : ((h + 0x1C000) * 2 ^ 13) mod 2 ^ 23 = h mod 2 ^ 10 * 2 ^ 13).
  { change (2 ^ 23) with (2 ^ 10 * 2 ^ 13). rewrite Z.mul_mod_distr_r by lia.
    change 0x1C000 with (112 * 2 ^ 10). now rewrite Z.mod_add by lia. }
  rewrite Hd, Hr.
  assert (He : 1 <= h / 2 ^ 10) by (apply Z.div_le_lower_bound; lia).
  destruct (Z.eqb_spec (h / 2 ^ 10 + 112) 0); [lia|].
  destruct (Z.eqb_spec (h / 2 ^ 10) 0); [lia|].
  replace (h / 2 ^ 10 + 112 - 1) with (112 + (h / 2 ^ 10 - 1)) by lia.
  rewrite Z.pow_add_r by lia.
  change (2 ^ 23) with (2 ^ 13 * 2 ^ 10). change (2 ^ 125) with (2 ^ 13 * 2 ^ 112).
  ring.
Qed.

(** The f16 magnitude [half_round] picks is nearest in value to the
    binary32 magnitude, among all f16 magnitudes up to Infinity (read as
    2^16). *)
Lemma half_round_nearest (a h : Z) :
  0 <= a < 0x47800000 -> 0 <= h <= 0x7c00 ->
  Z.abs (scaled 23 a - 2 ^ 125 * scaled 10 (half_round a))
  <= Z.abs (scaled 23 a - 2 ^ 125 * scaled 10 h).
Proof.
  intros Ha Hh. unfold half_round.
  destruct (Z.leb_spec 0x47800000 a); [lia|].
  destruct (Z.ltb_spec a 0x38800000) as [Hs|Hs].
  - (* subnormal results *)
    assert (HV : 0 <= scaled 23 a < 1024 * 2 ^ 125).
    { split.
      - change 0 with (scaled 23 0) at 1. apply RneValue.scaled_le. lia.
      - rewrite <- HalfRound.scaled_magic. apply Scaled.scaled_lt; lia. }
    pose proof (Rne.rne_bounds 125 (scaled 23 a) ltac:(lia)) as HR.
    assert (Hq : 0 <= scaled 23 a / 2 ^ 125 < 1024).
    { split; [apply Z.div_pos; lia | apply Z.div_lt_upper_bound; lia]. }
    set (V := scaled 23 a) in *. set (R := rne_shift 125 V) in *.
    rewrite (scaled10_low R) by lia.
    destruct (Z_lt_le_dec h 0x800) as [Hlow|Hhigh].
    + rewrite (scaled10_low h) by lia.
      pose proof (RneValue.rne_nearest 125 V h ltac:(lia)) as Hn.
      fold R in Hn. lia.
    + pose proof (RneValue.rne_nearest 125 V 1024 ltac:(lia)) as Hn.
      fold R in Hn.
      pose proof (scaled10_le 0x400 h ltac:(lia)) as Hm.
      rewrite (scaled10_low 0x400) in Hm by lia. lia.
  - (* normal results *)
    pose proof (Rne.rne_bounds 13 (a - 0x38000000) ltac:(lia)) as HR.
    assert (Hq : 0x400 <= (a - 0x38000000) / 2 ^ 13).
    { apply Z.div_le_lower_bound; lia. }
    assert (ER : rne_shift 13 a = rne_shift 13 (a - 0x38000000) + 0x1C000).
    { replace a with (a - 0x38000000 + 0x1C000 * 2 ^ 13) at 1 by lia.
      apply RneValue.rne_add_even; [lia | reflexivity]. }
    set (R := rne_shift 13 (a - 0x38000000)) in *.
    rewrite <- (scaled_rebased R) by lia. rewrite <- ER.
    assert (HV : 1024 * 2 ^ 125 <= scaled 23 a).
    { rewrite <- HalfRound.scaled_magic. apply RneValue.scaled_le. lia. }
    destruct (Z_lt_le_dec h 0x400) as [Hlow|Hhigh].
    + rewrite (scaled10_low h) by lia.
      pose proof (RneValue.nearest_pattern 13 a (0x400 + 0x1C000)
                    ltac:(lia) ltac:(lia) ltac:(lia)) as Hn.
      rewrite (scaled_rebased 0x400) in Hn by lia.
      rewrite (scaled10_low 0x400) in Hn by lia. lia.
    + rewrite <- (scaled_rebased h) by lia.
      apply RneValue.nearest_pattern; lia.
Qed.

End HalfValue.

Module HalfDec.

Lemma facts (p : Z) :
  is_u16 p ->
  let r := half2float p in
  is_u32 r /\
  F32.signbit r = Z.testbit p 15 /\
  F32.isnan r = half_isnan p /\
  (half_isfinite p = true ->
     scaled 23 (magnitude r) = 2 ^ 125 * scaled 10 (Z.land p 0x7fff)) /\
  (half_isfinite p = false ->
     magnitude r = 0x7f800000 + Z.land p 0x3ff * 2 ^ 13) /\
  float2half r = (if half_isnan p then Z.lor 0x7e00 (Z.land p 0x8000) else p) /\
  (p < 0xffff -> r < half2float (p + 1)).
Proof.
  intros Hp.
  assert (Hall : all_bits 16 0 half2float_check = true)
    by (vm_compute; reflexivity).
  pose proof (BitFacts.all_u16 half2float_check Hall p Hp) as Hc.
  unfold half2float_check in Hc. cbv zeta in *.
  split_checks Hc.
  apply Z.leb_le in Hc. apply Z.ltb_lt in C4.
  apply Bool.eqb_prop in C3, C2. apply Z.eqb_eq in C0.
  repeat split; try assumption.
  - intros Hf. rewrite Hf in C1. apply Z.eqb_eq in C1.
    now rewrite C1, Z.shiftl_mul_pow2, Z.mul_comm by lia.
  - intros Hf. rewrite Hf in C1. apply Z.eqb_eq in C1.
    now rewrite C1, Z.shiftl_mul_pow2 by lia.
  - intros Hlt. apply orb_true_iff in C as [C|C].
    + apply Z.eqb_eq in C. lia.
    + now apply Z.ltb_lt.
Qed.

(** Decoding grows strictly with the pattern, read as an unsigned
    number. *)
Lemma increasing (a b : Z) :
  0 <= a -> a < b -> b < 2 ^ 16 -> half2float a < half2float b.
Proof.
  intros Ha Hab Hb.
  assert (Hn : forall n : nat, a + 1 + Z.of_nat n < 2 ^ 16 ->
             half2float a < half2float (a + 1 + Z.of_nat n)).
  { induction n as [|n IH]; intros Hlt.
    - rewrite Z.add_0_r. apply (facts a); unfold is_u16; lia.
    - rewrite Nat2Z.inj_succ in *.
      apply Z.lt_trans with (half2float (a + 1 + Z.of_nat n)); [apply IH; lia|].
      replace (a + 1 + Z.succ (Z.of_nat n)) with (a + 1 + Z.of_nat n + 1) by lia.
      apply (facts (a + 1 + Z.of_nat n)); unfold is_u16; lia. }
  specialize (Hn (Z.to_nat (b - a - 1))).
  rewrite Z2Nat.id in Hn by lia.
  replace (a + 1 + (b - a - 1)) with b in Hn by lia. now apply Hn.
Qed.

End HalfDec.

Module BfloatParts.

Lemma nan_cases (x : Z) :
  F32.isnan x = true ->
  float2bfloat x = if F32.signbit x then 0xFFC0 else 0x7FC0.
Proof. intros Hn. unfold float2bfloat. now rewrite Hn. Qed.

(** The magnitude and the sign of the result, on every pattern. *)
Lemma float2bfloat_parts (x : Z) :
  is_u32 x ->
  Z.land (float2bfloat x) 0x7fff
    = (if F32.isnan x then 0x7fc0 else rne_shift 16 (magnitude x)) /\
  Z.testbit (float2bfloat x) 15 = F32.signbit x /\
  is_u16 (float2bfloat x).
Proof.
  intros Hx. destruct (F32.isnan x) eqn:Hn.
  - rewrite nan_cases by assumption.
    destruct (F32.signbit x); repeat split; reflexivity || (unfold is_u16; lia).
  - destruct (BfloatEnc.float2bfloat_rne x Hx Hn) as [E B]. rewrite E.
    pose proof (Rne.rne_bounds 16 (magnitude x) ltac:(lia)).
    pose proof (F32Facts.magnitude_range x).
    assert (0 <= magnitude x / 2 ^ 16) by (apply Z.div_pos; lia).
    apply Sign16.parts. lia.
Qed.

Lemma roundtrip (p : Z) :
  is_u16 p -> bfloat_isnan p = false -> float2bfloat (bfloat2float p) = p.
Proof.
  intros Hp Hnan.
  pose proof (BfloatFacts.bfloat2float_range p Hp) as Hr.
  assert (Hn : F32.isnan (bfloat2float p) = false)
    by (now rewrite BfloatFacts.isnan_bfloat2float).
  destruct (BfloatEnc.float2bfloat_rne _ Hr Hn) as [E _]. rewrite E.
  rewrite BfloatFacts.magnitude_bfloat2float, RneValue.rne_exact by (assumption || lia).
  assert (Hh : 0 <= Z.land p 0x7fff < 2 ^ 15).
  { change 0x7fff with (Z.ones 15). rewrite Z.land_ones by lia.
    apply Z.mod_pos_bound. lia. }
  rewrite F32Facts.lor_sign16 by assumption.
  rewrite BfloatFacts.signbit_bfloat2float by assumption.
  rewrite (BitFacts.testbit_top p 15) by (unfold is_u16 in Hp; change (2 ^ (15 + 1)) with (2 ^ 16); lia).
  change 0x7fff with (Z.ones 15). rewrite Z.land_ones by lia.
  unfold is_u16 in Hp. change (2 ^ 16) with 65536 in *. change (2 ^ 15) with 32768.
  destruct (Z.leb_spec 32768 p); Z.to_euclidean_division_equations; lia.
Qed.

End BfloatParts.

Module OrderBits.

(** Two binary32 patterns of one sign, neither a NaN: the one with the
    smaller magnitude pattern denotes the value closer to zero. *)
Lemma compare_bits (x y : Z) :
  F32.signbit x = F32.signbit y ->
  magnitude x < magnitude y <= 0x7f800000 ->
  SFcompare (F32.of_bits x) (F32.of_bits y)
    = Some (if F32.signbit x then Gt else Lt) /\
  SFcompare (F32.of_bits y) (F32.of_bits x)
    = Some (if F32.signbit x then Lt else Gt).
Proof.
  intros Hs Hm. unfold F32.of_bits, IEEE.of_bits.
  change (IEEE.sign_of 23 8 x) with (F32.signbit x).
  change (IEEE.sign_of 23 8 y) with (F32.signbit y).
  rewrite <- Hs. rewrite !F32Class.magnitude_fields in Hm.
  pose proof (F32Class.expo_range x). pose proof (F32Class.mant_range x).
  pose proof (F32Class.expo_range y). pose proof (F32Class.mant_range y).
  change (2 ^ 8) with 256 in *. change (2 ^ 23) with 8388608 in *.
  apply OrderFacts.compare_decode; change (2 ^ 23) with 8388608; lia.
Qed.

End OrderBits.

Import ListNotations.

Module KernelBundleFacts.
Import KernelBundle.

Section Selection.
Variable KernelID : kernel_id.

Lemma is_native_some (i : ImageImpl) :
  is_native i = true -> exists img, i = Some img /\ all_specialization_constant_native img = true.
Proof. destruct i as [img|]; [eauto | discriminate]. Qed.

Lemma is_not_native_some (i : ImageImpl) :
  is_not_native i = true -> exists img, i = Some img /\ all_specialization_constant_native img = false.
Proof.
  destruct i as [img|]; [|discriminate]. simpl. intros H.
  exists img. split; [reflexivity|]. now apply negb_true_iff.
Qed.

(** Whatever the loop returns was in one of its variables or is one of
    the images it went through. *)
Lemma select_from_origin (P : device_image -> Prop) :
  forall images st,
    (forall i, SelectedImage st = Some i -> P i) ->
    (forall i, ImageWithReplacedSpecConsts st = Some i -> P i) ->
    (forall i, OriginalImage st = Some i -> P i) ->
    (forall i, In i images -> has_kernel i KernelID = true -> P i) ->
    forall img, select_from KernelID images st = Some img -> P img.
Proof.
  induction images as [|D rest IH]; intros st HS HR HO HI img; cbn [select_from].
  - apply HS.
  - destruct (has_kernel D KernelID) eqn:HK; cbn [negb].
    + assert (PD : P D) by (apply HI; [now left | assumption]).
      assert (HI' : forall i, In i rest -> has_kernel i KernelID = true -> P i)
        by (intros i Hi; apply HI; now right).
      assert (HR' : forall i,
                (if specialization_constants_replaced_with_default D then Some D else ImageWithReplacedSpecConsts st)
                = Some i -> P i).
      { destruct (specialization_constants_replaced_with_default D); [intros i [= <-]; exact PD | exact HR]. }
      assert (HO' : forall i,
                (if specialization_constants_replaced_with_default D then OriginalImage st else Some D) = Some i -> P i).
      { destruct (specialization_constants_replaced_with_default D); [exact HO | intros i [= <-]; exact PD]. }
      destruct (SpecConstsSet st || is_any_specialization_constant_set D).
      * destruct (is_native _) eqn:HN.
        -- apply HO'.
        -- apply IH; cbn; assumption.
      * apply IH; cbn; try assumption.
        destruct (is_not_native _); assumption.
    + apply IH; try assumption. intros i Hi. apply HI. now right.
Qed.

Lemma coherent_initial : coherent initial.
Proof. split; cbn; intros; discriminate || reflexivity. Qed.

(** One more image that holds the kernel, without a [break]. *)
Lemma coherent_step (st : selection) (D : device_image) :
  coherent st ->
  let set := SpecConstsSet st || is_any_specialization_constant_set D in
  let rep := if specialization_constants_replaced_with_default D then Some D else ImageWithReplacedSpecConsts st in
  let ori := if specialization_constants_replaced_with_default D then OriginalImage st else Some D in
  coherent {| SelectedImage := if set then ori
                               else if is_not_native rep then rep else ori;
              ImageWithReplacedSpecConsts := rep;
              OriginalImage := ori; SpecConstsSet := set |}.
Proof.
  intros [HO HR HS]. cbv zeta. split; cbn.
  - destruct (specialization_constants_replaced_with_default D) eqn:E; [exact HO | intros o [= <-]; exact E].
  - destruct (specialization_constants_replaced_with_default D) eqn:E; [intros o [= <-]; exact E | exact HR].
  - reflexivity.
Qed.

(** An image with replaced constants is returned only when no image with
    the kernel has a constant set, and only without native support. *)
Lemma select_from_replaced :
  forall images st, coherent st ->
    forall img, select_from KernelID images st = Some img ->
    specialization_constants_replaced_with_default img = true ->
    all_specialization_constant_native img = false /\ SpecConstsSet st = false /\
    forall c, In c images -> has_kernel c KernelID = true -> is_any_specialization_constant_set c = false.
Proof.
  induction images as [|D rest IH]; intros st Hst img; cbn [select_from].
  - destruct Hst as [HO HR HS]. rewrite HS. intros Hsel Hrep.
    destruct (SpecConstsSet st).
    + apply HO in Hsel. congruence.
    + destruct (is_not_native _) eqn:HN.
      * apply is_not_native_some in HN as (r & Er & Hr).
        rewrite Er in Hsel. injection Hsel as <-.
        repeat split; [assumption|]. intros c [].
      * apply HO in Hsel. congruence.
  - destruct (has_kernel D KernelID) eqn:HK; cbn [negb].
    + pose proof (coherent_step st D Hst) as Hst'. cbv zeta in Hst'.
      destruct (SpecConstsSet st || is_any_specialization_constant_set D) eqn:Hset.
      * destruct (is_native _) eqn:HN.
        -- intros Hsel Hrep. exfalso.
           destruct (specialization_constants_replaced_with_default D) eqn:E.
           ++ apply (original_kept st Hst) in Hsel. congruence.
           ++ injection Hsel as <-. congruence.
        -- intros Hsel Hrep.
           destruct (IH _ Hst' img Hsel Hrep) as (_ & Hf & _). discriminate Hf.
      * intros Hsel Hrep.
        destruct (IH _ Hst' img Hsel Hrep) as (Hn & _ & Hall).
        apply orb_false_iff in Hset as [Hs Ha].
        repeat split; try assumption.
        intros c [<- | Hc] Hk; [assumption | now apply Hall].
    + intros Hsel Hrep.
      destruct (IH st Hst img Hsel Hrep) as (Hn & Hs & Hall).
      repeat split; try assumption.
      intros c [<- | Hc] Hk; [congruence | now apply Hall].
Qed.

(** With an image among the candidates whose constants are not replaced,
    something is returned. *)
Lemma select_from_some :
  forall images st, coherent st ->
    (OriginalImage st <> None \/
     exists c, In c images /\ has_kernel c KernelID = true /\ specialization_constants_replaced_with_default c = false) ->
    select_from KernelID images st <> None.
Proof.
  induction images as [|D rest IH]; intros st Hst Hex; cbn [select_from].
  - destruct Hex as [Ho | (c & [] & _)].
    rewrite (selected_is st Hst).
    destruct (SpecConstsSet st); [assumption|].
    destruct (is_not_native _) eqn:HN; [|assumption].
    apply is_not_native_some in HN as (r & -> & _). discriminate.
  - destruct (has_kernel D KernelID) eqn:HK; cbn [negb].
    + pose proof (coherent_step st D Hst) as Hst'. cbv zeta in Hst'.
      assert (Hex' : (if specialization_constants_replaced_with_default D then OriginalImage st else Some D) <> None \/
                     exists c, In c rest /\ has_kernel c KernelID = true
                               /\ specialization_constants_replaced_with_default c = false).
      { destruct Hex as [Ho | (c & [<- | Hc] & Hk & Hr)].
        - left. destruct (specialization_constants_replaced_with_default D); [assumption | discriminate].
        - left. rewrite Hr. discriminate.
        - right. eauto. }
      destruct (SpecConstsSet st || is_any_specialization_constant_set D) eqn:Hset.
      * destruct (is_native _) eqn:HN.
        -- apply is_native_some in HN as (o & -> & _). discriminate.
        -- apply (IH _ Hst'). exact Hex'.
      * apply (IH _ Hst'). exact Hex'.
    + apply IH; [assumption|].
      destruct Hex as [Ho | (c & [<- | Hc] & Hk & Hr)];
        [now left | congruence | right; eauto].
Qed.

Lemma find_snoc {A : Type} (f : A -> bool) (l : list A) (a : A) :
  find f (l ++ [a]) =
    match find f l with
    | Some x => Some x
    | None => if f a then Some a else None
    end.
Proof.
  induction l as [|b l IH]; cbn; [reflexivity|].
  destruct (f b); [reflexivity | exact IH].
Qed.

Lemma last_candidate_cons (f : device_image -> bool) (D : device_image)
    (images : list device_image) :
  last_candidate KernelID f (D :: images) =
    match last_candidate KernelID f images with
    | Some x => Some x
    | None => if has_kernel D KernelID && f D then Some D else None
    end.
Proof. unfold last_candidate. cbn [rev]. now rewrite find_snoc. Qed.

(** Without a constant set in any image that holds the kernel, the loop
    ends on the last image with replaced constants if that has no native
    support, else on the last image without replaced constants. *)
Lemma select_from_unset :
  forall images st, coherent st -> SpecConstsSet st = false ->
    (forall c, In c images -> has_kernel c KernelID = true ->
               is_any_specialization_constant_set c = false) ->
    let R := or_else
               (last_candidate KernelID
                  specialization_constants_replaced_with_default images)
               (ImageWithReplacedSpecConsts st) in
    let O := or_else
               (last_candidate KernelID
                  (fun i => negb (specialization_constants_replaced_with_default i))
                  images)
               (OriginalImage st) in
    select_from KernelID images st = if is_not_native R then R else O.
Proof.
  induction images as [|D rest IH]; intros st Hst Hset Hall; cbv zeta.
  - cbn. rewrite (selected_is st Hst), Hset. reflexivity.
  - rewrite !last_candidate_cons. cbn [select_from].
    assert (Hall' : forall c, In c rest -> has_kernel c KernelID = true ->
                    is_any_specialization_constant_set c = false)
      by (intros c Hc; apply Hall; now right).
    destruct (has_kernel D KernelID) eqn:HK; cbn [negb andb].
    + rewrite Hset, (Hall D (or_introl eq_refl) HK). cbn [orb]. cbv iota.
      pose proof (coherent_step st D Hst) as Hst'. cbv zeta in Hst'.
      rewrite Hset, (Hall D (or_introl eq_refl) HK) in Hst'.
      cbn [orb] in Hst'. cbv iota in Hst'.
      etransitivity; [apply (IH _ Hst' eq_refl Hall')|]. cbn.
      destruct (specialization_constants_replaced_with_default D);
        cbn [negb];
        destruct (last_candidate KernelID _ rest);
        destruct (last_candidate KernelID _ rest); reflexivity.
    + etransitivity; [apply (IH st Hst Hset Hall')|]. cbv zeta.
      destruct (last_candidate KernelID _ rest);
        destruct (last_candidate KernelID _ rest); reflexivity.
Qed.

End Selection.
End KernelBundleFacts.

Module HalfParts.

(** The magnitude and the sign of the result of [float2half]. *)
Lemma float2half_parts (x : Z) :
  is_u32 x ->
  Z.land (float2half x) 0x7fff = half_round (magnitude x) /\
  Z.testbit (float2half x) 15 = F32.signbit x /\
  is_u16 (float2half x).
Proof.
  intros Hx. destruct (HalfRound.float2half_spec x Hx) as [E B].
  rewrite E. now apply Sign16.parts.
Qed.

Lemma half_round_nan (a : Z) :
  0 <= a -> (0x7c00 <? half_round a) = (0x7f800000 <? a).
Proof.
  intros Ha. destruct (Z.ltb_spec 0x7f800000 a) as [Hn|Hn].
  - unfold half_round.
    destruct (Z.leb_spec 0x47800000 a); [|lia].
    destruct (Z.ltb_spec 0x7f800000 a); [reflexivity | lia].
  - pose proof (HalfRound.half_round_mono a 0x7f800000 ltac:(lia) ltac:(lia)) as Hm.
    change (half_round 0x7f800000) with 0x7c00 in Hm.
    apply Z.ltb_ge. exact Hm.
Qed.

(** The only NaN that [float2half] produces is the quiet NaN. *)
Lemma half_round_nan_value (a : Z) :
  0 <= a -> 0x7c00 < half_round a -> half_round a = 0x7e00.
Proof.
  intros Ha Hgt. apply Z.ltb_lt in Hgt. rewrite half_round_nan in Hgt by assumption.
  apply Z.ltb_lt in Hgt. unfold half_round.
  destruct (Z.leb_spec 0x47800000 a); [|lia].
  destruct (Z.ltb_spec 0x7f800000 a); [reflexivity | lia].
Qed.

(** A 16-bit pattern from its magnitude and its sign bit. *)
Lemma from_parts (y : Z) :
  is_u16 y -> y = Z.land y 0x7fff + (if Z.testbit y 15 then 0x8000 else 0).
Proof.
  intros Hy. unfold is_u16 in Hy.
  rewrite (BitFacts.testbit_top y 15) by (change (2 ^ (15 + 1)) with (2 ^ 16); lia).
  change 0x7fff with (Z.ones 15). rewrite Z.land_ones by lia.
  change (2 ^ 16) with 65536 in *. change (2 ^ 15) with 32768.
  destruct (Z.leb_spec 32768 y); Z.to_euclidean_division_equations; lia.
Qed.

End HalfParts.

(** ** Narrowing binary64 to binary32 *)

Module Narrow.

(** The first shift of [binary_round], by [n] bits, and the rounding. *)
Lemma round_first (s : bool) (m n : positive) (e : Z) :
  fexp 24 128 (Zpos (digits2_pos m) + e) = e + Zpos n ->
  binary_round 24 128 s m e =
    let '(mrs, e2) :=
      shr_fexp 24 128 (rne_shift (Zpos n) (Zpos m)) (e + Zpos n) loc_Exact in
    match shr_m mrs with
    | 0 => S754_zero s
    | Zpos p => if e2 <=? 128 - 24 then S754_finite s p e2 else S754_infinity s
    | Zneg _ => S754_nan
    end.
Proof.
  intros Hf. unfold binary_round. rewrite Hf.
  assert (A : shl_align m e (e + Zpos n) = (m, e)).
  { unfold shl_align. now replace (e + Zpos n - e) with (Zpos n) by lia. }
  rewrite A. unfold binary_round_aux.
  assert (B : shr_fexp 24 128 (Zpos m) e loc_Exact
              = (iter_pos shr_1 n (Build_shr_record (Zpos m) false false),
                 e + Zpos n)).
  { unfold shr_fexp. cbn [Zdigits2 shr_record_of_loc]. rewrite Hf.
    replace (e + Zpos n - e) with (Zpos n) by lia. reflexivity. }
  rewrite B, SFFacts.shr_round by lia. reflexivity.
Qed.

(** The second shift does nothing on a mantissa that fits. *)
Lemma shr_fexp_fits (p : positive) (e : Z) :
  fexp 24 128 (Zpos (digits2_pos p) + e) = e ->
  shr_fexp 24 128 (Zpos p) e loc_Exact
    = (Build_shr_record (Zpos p) false false, e).
Proof.
  intros Hf. unfold shr_fexp. cbn [Zdigits2 shr_record_of_loc].
  now rewrite Hf, Z.sub_diag.
Qed.

(** After a carry out of the mantissa it shifts by one bit. *)
Lemma shr_fexp_carry (e : Z) :
  -149 <= e + 1 ->
  shr_fexp 24 128 (2 ^ 24) e loc_Exact
    = (Build_shr_record (2 ^ 23) false false, e + 1).
Proof.
  intros He. unfold shr_fexp.
  change (Zdigits2 (2 ^ 24)) with 25.
  assert (E : fexp 24 128 (25 + e) - e = 1).
  { unfold fexp, emin. lia. }
  rewrite E. reflexivity.
Qed.

Lemma fexp_spec (z : Z) : fexp 24 128 z = Z.max (z - 24) (-149).
Proof. reflexivity. Qed.

(** A normal binary64 value in the normal range of binary32, or above:
    the pattern of the rounded value. *)
Lemma round_normal (s : bool) (m : positive) (e64 : Z) :
  2 ^ 52 <= Zpos m < 2 ^ 53 -> 897 <= e64 <= 2046 ->
  F32.to_bits (binary_round 24 128 s m (e64 - 1075)) =
    IEEE.sign_bit 23 8 s +
    if 1151 <=? e64 then 0x7f800000
    else (e64 - 896) * 2 ^ 23 + rne_shift 29 (Zpos m - 2 ^ 52).
Proof.
  intros Hm He.
  assert (Dm : Zpos (digits2_pos m) = 53)
    by (apply SFFacts.digits2_bounds; change (53 - 1) with 52; lia).
  rewrite (round_first s m 29)
    by (rewrite Dm, fexp_spec; lia).
  assert (ER : rne_shift 29 (Zpos m) = rne_shift 29 (Zpos m - 2 ^ 52) + 2 ^ 23).
  { replace (Zpos m) with (Zpos m - 2 ^ 52 + 2 ^ 23 * 2 ^ 29) at 1
      by (change (2 ^ 23 * 2 ^ 29) with (2 ^ 52); lia).
    apply RneValue.rne_add_even; [lia | reflexivity]. }
  pose proof (Rne.rne_bounds 29 (Zpos m - 2 ^ 52) ltac:(lia)) as HR.
  assert (Hq : 0 <= (Zpos m - 2 ^ 52) / 2 ^ 29 < 2 ^ 23).
  { split; [apply Z.div_pos; lia|].
    apply Z.div_lt_upper_bound; [lia|].
    change (2 ^ 29 * 2 ^ 23) with (2 ^ 52). change (2 ^ 53) with (2 * 2 ^ 52) in Hm.
    lia. }
  rewrite ER. set (R := rne_shift 29 (Zpos m - 2 ^ 52)) in *.
  replace (e64 - 1075 + 29) with (e64 - 1046) by lia.
  destruct (Z.eq_dec R (2 ^ 23)) as [Ecarry|Hnc].
  - (* the rounding carries out of the mantissa *)
    rewrite Ecarry. change (2 ^ 23 + 2 ^ 23) with (2 ^ 24).
    rewrite shr_fexp_carry by lia. cbn [shr_m].
    change (2 ^ 23) with 8388608.
    destruct (Z.leb_spec 1151 e64), (Z.leb_spec (e64 - 1046 + 1) (128 - 24));
      try lia.
    + destruct s; reflexivity.
    + unfold F32.to_bits, IEEE.to_bits.
      change (Z.pos 8388608 <? 2 ^ 23) with false. cbv iota.
      change (IEEE.bias 8) with 127. rewrite Z.shiftl_mul_pow2 by lia.
      change (2 ^ 23) with 8388608. lia.
    + assert (e64 = 1150) as -> by lia. destruct s; reflexivity.
  - destruct (R + 2 ^ 23) as [|p|p] eqn:Ep;
      try (change (2 ^ 23) with 8388608 in *; lia).
    assert (Dp : Zpos (digits2_pos p) = 24).
    { apply SFFacts.digits2_bounds. rewrite <- Ep.
      change (2 ^ (24 - 1)) with (2 ^ 23). change (2 ^ 24) with (2 * 2 ^ 23). lia. }
    rewrite shr_fexp_fits by (rewrite Dp, fexp_spec; lia).
    cbn [shr_m].
    destruct (Z.leb_spec 1151 e64), (Z.leb_spec (e64 - 1046) (128 - 24));
      try lia.
    + destruct s; reflexivity.
    + unfold F32.to_bits, IEEE.to_bits. rewrite <- Ep.
      destruct (Z.ltb_spec (R + 2 ^ 23) (2 ^ 23)); [lia|].
      change (IEEE.bias 8) with 127. rewrite Z.shiftl_mul_pow2 by lia.
      change (2 ^ 23) with 8388608. lia.
Qed.

End Narrow.

Module NarrowSmall.

Lemma digits2_le (p : positive) (k : Z) :
  0 <= k -> Zpos p < 2 ^ k -> Zpos (digits2_pos p) <= k.
Proof.
  intros Hk Hp. rewrite SFFacts.digits2_size.
  pose proof (Pos.size_le p) as Hle. apply Pos2Z.pos_le_pos in Hle.
  rewrite Pos2Z.inj_pow in Hle. change (Z.pos p~0) with (2 * Z.pos p) in Hle.
  set (sz := Zpos (Pos.size p)) in *.
  destruct (Z_le_gt_dec sz k) as [|Hgt]; [assumption|].
  assert (2 ^ (k + 1) <= 2 ^ sz) by (apply Z.pow_le_mono_r; lia).
  rewrite Z.pow_add_r, Z.pow_1_r in * by lia. lia.
Qed.

(** A binary64 value below 2^-126: the pattern of the rounded value is
    its count of units of 2^-149, rounded. *)
Lemma round_small (s : bool) (m n : positive) :
  Zpos m < 2 ^ (Zpos n + 23) ->
  F32.to_bits (binary_round 24 128 s m (-149 - Zpos n)) =
    IEEE.sign_bit 23 8 s + rne_shift (Zpos n) (Zpos m) /\
  0 <= rne_shift (Zpos n) (Zpos m) <= 2 ^ 23.
Proof.
  intros Hm.
  pose proof (digits2_le m (Zpos n + 23) ltac:(lia) Hm) as Dm.
  rewrite (Narrow.round_first s m n)
    by (rewrite Narrow.fexp_spec; lia).
  replace (-149 - Zpos n + Zpos n) with (-149) by lia.
  pose proof (Rne.rne_bounds (Zpos n) (Zpos m) ltac:(lia)) as HR.
  assert (Hq : 0 <= Zpos m / 2 ^ Zpos n < 2 ^ 23).
  { assert (0 < 2 ^ Zpos n) by (apply Z.pow_pos_nonneg; lia).
    split; [apply Z.div_pos; lia|].
    apply Z.div_lt_upper_bound; [lia|].
    rewrite <- Z.pow_add_r by lia. exact Hm. }
  set (R := rne_shift (Zpos n) (Zpos m)) in *.
  split; [|lia].
  destruct R as [|p|p] eqn:ER; [| |lia].
  - destruct s; reflexivity.
  - assert (Dp : Zpos (digits2_pos p) <= 24).
    { apply digits2_le; [lia|]. change (2 ^ 24) with (2 * 2 ^ 23). lia. }
    rewrite Narrow.shr_fexp_fits by (rewrite Narrow.fexp_spec; lia).
    cbn [shr_m]. change (-149 <=? 128 - 24) with true. cbv iota.
    unfold F32.to_bits, IEEE.to_bits.
    destruct (Z.ltb_spec (Zpos p) (2 ^ 23)); [reflexivity|].
    assert (Zpos p = 2 ^ 23) as -> by lia. destruct s; reflexivity.
Qed.

End NarrowSmall.

Module F64Facts.

Lemma magnitude64_spec (d : Z) : magnitude64 d = d mod 2 ^ 63.
Proof. exact (Z.land_ones d 63 ltac:(lia)). Qed.

Lemma expo64_spec (d : Z) : IEEE.expo_of 52 11 d = (d / 2 ^ 52) mod 2 ^ 11.
Proof.
  unfold IEEE.expo_of.
  rewrite Z.shiftr_div_pow2 by lia. exact (Z.land_ones _ 11 ltac:(lia)).
Qed.

Lemma mant64_spec (d : Z) : IEEE.mant_of 52 d = d mod 2 ^ 52.
Proof. exact (Z.land_ones d 52 ltac:(lia)). Qed.

Lemma magnitude64_fields (d : Z) :
  magnitude64 d = IEEE.expo_of 52 11 d * 2 ^ 52 + IEEE.mant_of 52 d.
Proof.
  rewrite magnitude64_spec, expo64_spec, mant64_spec.
  change (2 ^ 63) with (2 ^ 52 * 2 ^ 11).
  rewrite Z.rem_mul_r by lia. lia.
Qed.

End F64Facts.

Module NarrowBits.

Lemma narrow_round_range (m : Z) : 0 <= m -> 0 <= narrow_round m <= 0x7f800000.
Proof.
  intros Hm. unfold narrow_round.
  destruct (Z.leb_spec 0x47F0000000000000 m); [lia|].
  destruct (Z.ltb_spec m 0x3810000000000000).
  - assert (HV : 0 <= scaled 52 m < 2 ^ 925 * 2 ^ 23).
    { split.
      - change 0 with (scaled 52 0) at 1.
        destruct (Z.eq_dec m 0) as [->|]; [lia|].
        pose proof (Scaled.scaled_lt 52 ltac:(lia) 0 m ltac:(lia)). lia.
      - change (2 ^ 925 * 2 ^ 23) with (scaled 52 0x3810000000000000).
        apply Scaled.scaled_lt; lia. }
    pose proof (Rne.rne_bounds 925 (scaled 52 m) ltac:(lia)).
    assert (0 <= scaled 52 m / 2 ^ 925 < 2 ^ 23).
    { split; [apply Z.div_pos; lia | apply Z.div_lt_upper_bound; lia]. }
    change (2 ^ 23) with 8388608 in *. lia.
  - pose proof (Rne.rne_bounds 29 (m - 0x3800000000000000) ltac:(lia)).
    assert (0 <= (m - 0x3800000000000000) / 2 ^ 29 < 255 * 2 ^ 23).
    { split; [apply Z.div_pos; lia | apply Z.div_lt_upper_bound; lia]. }
    change (2 ^ 23) with 8388608 in *. lia.
Qed.

(** Narrowing a binary64 pattern that is not a NaN: the nearest binary32
    magnitude, with the sign. *)
Lemma to_float_spec (d : Z) :
  F64.isnan d = false ->
  F64.to_float d
    = IEEE.sign_bit 23 8 (F64.signbit d) + narrow_round (magnitude64 d).
Proof.
  intros Hnan. unfold F64.to_float. rewrite Hnan.
  unfold F64.isnan in Hnan. fold (magnitude64 d) in Hnan.
  apply Z.ltb_ge in Hnan.
  unfold F64.of_bits, IEEE.of_bits.
  change (IEEE.sign_of 52 11 d) with (F64.signbit d).
  rewrite F64Facts.magnitude64_fields in *.
  pose proof (Z.mod_pos_bound (d / 2 ^ 52) (2 ^ 11) ltac:(lia)) as He.
  pose proof (Z.mod_pos_bound d (2 ^ 52) ltac:(lia)) as Hm.
  rewrite <- F64Facts.expo64_spec in He. rewrite <- F64Facts.mant64_spec in Hm.
  generalize dependent (IEEE.mant_of 52 d). intros m52.
  generalize dependent (IEEE.expo_of 52 11 d). intros e64.
  generalize (F64.signbit d). intros s He Hnan Hm.
  change (2 ^ 11) with 2048 in He.
  unfold IEEE.decode. change (Z.ones 11) with 2047.
  change (1 - IEEE.bias 11 - 52) with (-1074). change (IEEE.bias 11) with 1023.
  unfold narrow_round.
  destruct (Z.eqb_spec e64 0) as [E0|E0].
  - (* zero and subnormal binary64 values *)
    subst e64. rewrite Z.mul_0_l, Z.add_0_l.
    destruct (Z.leb_spec 0x47F0000000000000 m52);
      [change (2 ^ 52) with 4503599627370496 in Hm; lia|].
    destruct (Z.ltb_spec m52 0x3810000000000000);
      [|change (2 ^ 52) with 4503599627370496 in Hm; lia].
    assert (Es : scaled 52 m52 = m52).
    { rewrite Scaled.scaled_spec by lia.
      rewrite Z.div_small, Z.mod_small by lia. reflexivity. }
    rewrite Es.
    destruct m52 as [|p|p]; [| |lia].
    + destruct s; reflexivity.
    + change (-1074) with (-149 - Zpos 925).
      apply NarrowSmall.round_small.
      apply Z.lt_trans with (2 ^ 52); [lia | reflexivity].
  - destruct (Z.eqb_spec e64 2047) as [E1|E1].
    + (* Infinity *)
      subst e64. assert (m52 = 0) as -> by (change (2 ^ 52) with 4503599627370496 in *; lia).
      destruct s; reflexivity.
    + destruct (m52 + 2 ^ 52) as [|p|p] eqn:Ep; try lia.
      replace (e64 - 1023 - 52) with (e64 - 1075) by lia.
      destruct (Z_le_gt_dec 897 e64) as [Hn|Hs].
      * (* the normal range of binary32, and above *)
        rewrite Narrow.round_normal by lia. f_equal.
        replace (Zpos p - 2 ^ 52) with m52 by lia.
        change (2 ^ 52) with 4503599627370496 in *.
        destruct (Z.leb_spec 1151 e64),
          (Z.leb_spec 0x47F0000000000000 (e64 * 4503599627370496 + m52));
          try lia.
        destruct (Z.ltb_spec (e64 * 4503599627370496 + m52) 0x3810000000000000);
          [lia|].
        replace (e64 * 4503599627370496 + m52 - 0x3800000000000000)
          with (m52 + (e64 - 896) * 2 ^ 23 * 2 ^ 29)
          by (change (2 ^ 23) with 8388608; change (2 ^ 29) with 536870912; lia).
        rewrite RneValue.rne_add_even; [lia | lia |].
        rewrite Z.even_mul. change (Z.even (2 ^ 23)) with true.
        apply orb_true_r.
      * (* below 2^-126 *)
        change (2 ^ 52) with 4503599627370496 in *.
        destruct (Z.leb_spec 0x47F0000000000000 (e64 * 4503599627370496 + m52));
          [lia|].
        destruct (Z.ltb_spec (e64 * 4503599627370496 + m52) 0x3810000000000000);
          [|lia].
        assert (Hn : exists n, e64 = 926 - Zpos n /\ 30 <= Zpos n).
        { exists (Z.to_pos (926 - e64)). rewrite Z2Pos.id by lia. lia. }
        destruct Hn as (n & -> & Hn).
        replace (926 - Zpos n - 1075) with (-149 - Zpos n) by lia.
        assert (Es : scaled 52 ((926 - Zpos n) * 4503599627370496 + m52)
                     = Zpos p * 2 ^ (925 - Zpos n)).
        { rewrite Scaled.scaled_spec by lia.
          change (2 ^ 52) with 4503599627370496.
          assert (Hd : ((926 - Zpos n) * 4503599627370496 + m52) / 4503599627370496
                       = 926 - Zpos n)
            by (symmetry; apply Z.div_unique with (r := m52); lia).
          assert (Hr : ((926 - Zpos n) * 4503599627370496 + m52) mod 4503599627370496
                       = m52)
            by (symmetry; apply Z.mod_unique with (q := 926 - Zpos n); lia).
          rewrite Hd, Hr.
          destruct (Z.eqb_spec (926 - Zpos n) 0); [lia|].
          replace (926 - Zpos n - 1) with (925 - Zpos n) by lia.
          f_equal. lia. }
        rewrite Es.
        replace 925 with (Zpos n + (925 - Zpos n)) at 1 by lia.
        rewrite HalfEnc.rne_scale by lia.
        apply NarrowSmall.round_small.
        apply Z.lt_le_trans with (2 ^ 53); [lia|].
        apply Z.pow_le_mono_r; lia.
Qed.

End NarrowBits.

Module NarrowParts.

(** A binary32 pattern from a sign and a magnitude: its parts. *)
Lemma parts32 (s : bool) (r : Z) :
  0 <= r < 2 ^ 31 ->
  is_u32 (IEEE.sign_bit 23 8 s + r) /\
  F32.signbit (IEEE.sign_bit 23 8 s + r) = s /\
  magnitude (IEEE.sign_bit 23 8 s + r) = r.
Proof.
  intros Hr. rewrite F32Facts.magnitude_spec. unfold F32.signbit, is_u32.
  assert (Hs : IEEE.sign_bit 23 8 s = if s then 2 ^ 31 else 0)
    by (destruct s; reflexivity).
  rewrite Hs. change (2 ^ 32) with (2 * 2 ^ 31).
  destruct s; (split; [lia | split]).
  - rewrite (BitFacts.testbit_top _ 31)
      by (change (2 ^ (31 + 1)) with (2 * 2 ^ 31); lia).
    apply Z.leb_le. lia.
  - symmetry. apply Z.mod_unique with (q := 1); lia.
  - rewrite (BitFacts.testbit_top _ 31)
      by (change (2 ^ (31 + 1)) with (2 * 2 ^ 31); lia).
    apply Z.leb_gt. lia.
  - apply Z.mod_small. lia.
Qed.

(** The sign, the magnitude and the class of a narrowed value. *)
Lemma to_float_parts (d : Z) :
  F64.isnan d = false ->
  is_u32 (F64.to_float d) /\
  F32.signbit (F64.to_float d) = F64.signbit d /\
  magnitude (F64.to_float d) = narrow_round (magnitude64 d) /\
  F32.isnan (F64.to_float d) = false.
Proof.
  intros Hn. rewrite (NarrowBits.to_float_spec d Hn).
  assert (Hm : 0 <= magnitude64 d).
  { rewrite F64Facts.magnitude64_spec. apply Z.mod_pos_bound. lia. }
  pose proof (NarrowBits.narrow_round_range (magnitude64 d) Hm) as HR.
  destruct (parts32 (F64.signbit d) (narrow_round (magnitude64 d)))
    as (Hu & Hs & Hg); [change (2 ^ 31) with 2147483648; lia|].
  repeat split; try assumption; try apply Hu.
  unfold F32.isnan. fold (magnitude (IEEE.sign_bit 23 8 (F64.signbit d)
                                     + narrow_round (magnitude64 d))).
  rewrite Hg. apply Z.ltb_ge. lia.
Qed.

(** A NaN narrows to a NaN. *)
Lemma to_float_nan (d : Z) :
  F64.isnan d = true -> F32.isnan (F64.to_float d) = true.
Proof.
  intros Hn. unfold F64.to_float. rewrite Hn.
  assert (Hp : 0 <= Z.land (Z.shiftr d 29) 0x3fffff < 2 ^ 22).
  { change 0x3fffff with (Z.ones 22). rewrite Z.land_ones by lia.
    apply Z.mod_pos_bound. lia. }
  set (p := Z.land (Z.shiftr d 29) 0x3fffff) in *.
  destruct (parts32 (F64.signbit d) (0x7fc00000 + p)) as (_ & _ & Hg);
    [change (2 ^ 22) with 4194304 in Hp; change (2 ^ 31) with 2147483648; lia|].
  unfold F32.isnan.
  fold (magnitude (IEEE.sign_bit 23 8 (F64.signbit d) + 0x7fc00000 + p)).
  rewrite <- Z.add_assoc, Hg. apply Z.ltb_lt. lia.
Qed.

End NarrowParts.

Module NarrowValue.

Section Width.
Variable mw : Z.
Hypothesis Hmw : 0 <= mw.

Lemma scaled_mono (x y : Z) : 0 <= x <= y -> scaled mw x <= scaled mw y.
Proof.
  intros Hxy. destruct (Z.eq_dec x y) as [->|Hne]; [lia|].
  pose proof (Scaled.scaled_lt mw Hmw x y ltac:(lia)). lia.
Qed.

Lemma spacing_positive (x : Z) : 0 <= x -> 0 < spacing mw x.
Proof.
  intros Hx. rewrite Scaled.spacing_spec by lia.
  assert (0 < 2 ^ mw) by (apply Z.pow_pos_nonneg; lia).
  assert (0 <= x / 2 ^ mw) by (apply Z.div_pos; lia).
  destruct (Z.eqb_spec (x / 2 ^ mw) 0); [lia|].
  apply Z.pow_pos_nonneg; lia.
Qed.

(** Among the patterns that are multiples of [2^k], the rounded one is
    nearest in magnitude, whatever the width of the mantissa. *)
Lemma nearest_of_width (k v g : Z) :
  1 <= k <= mw -> 0 <= v -> 0 <= g ->
  Z.abs (scaled mw v - scaled mw (rne_shift k v * 2 ^ k))
  <= Z.abs (scaled mw v - scaled mw (g * 2 ^ k)).
Proof.
  intros Hk Hv Hg. rewrite Rne.rne_spec by lia.
  assert (HP : 0 < 2 ^ (k - 1)) by (apply Z.pow_pos_nonneg; lia).
  assert (E2 : 2 ^ k = 2 * 2 ^ (k - 1)).
  { replace k with (Z.succ (k - 1)) at 1 by lia. apply Z.pow_succ_r. lia. }
  pose proof (Z.div_mod v (2 ^ k) ltac:(lia)) as Ev.
  pose proof (Z.mod_pos_bound v (2 ^ k) ltac:(lia)) as Bv.
  assert (Hq : 0 <= v / 2 ^ k) by (apply Z.div_pos; lia).
  assert (EW : 2 ^ mw = 2 ^ (mw - k) * 2 ^ k)
    by (rewrite <- Z.pow_add_r by lia; f_equal; lia).
  assert (HQ : 0 < 2 ^ (mw - k)) by (apply Z.pow_pos_nonneg; lia).
  set (P := 2 ^ k) in *. set (H := 2 ^ (k - 1)) in *.
  set (q := v / P) in *. set (r := v mod P) in *.
  assert (Hfit : (q * P) mod 2 ^ mw + P <= 2 ^ mw).
  { rewrite EW, Z.mul_mod_distr_r by lia.
    pose proof (Z.mod_pos_bound q (2 ^ (mw - k)) HQ). nia. }
  pose proof (Scaled.scaled_add mw Hmw (q * P) r ltac:(nia) ltac:(lia) ltac:(lia)) as Sv.
  pose proof (Scaled.scaled_add mw Hmw (q * P) P ltac:(nia) ltac:(lia) ltac:(lia)) as Sn.
  replace (q * P + r) with v in Sv by lia.
  replace (q * P + P) with ((q + 1) * P) in Sn by ring.
  assert (Hsp : 0 < spacing mw (q * P)) by (apply spacing_positive; nia).
  assert (Hle : g <= q -> scaled mw (g * P) <= scaled mw (q * P)).
  { intros Hgq. apply scaled_mono; nia. }
  assert (Hge : q + 1 <= g -> scaled mw ((q + 1) * P) <= scaled mw (g * P)).
  { intros Hgq. apply scaled_mono; nia. }
  unfold nearest_even.
  assert (Hcase : g <= q \/ q + 1 <= g) by lia.
  remember (scaled mw (g * P)) as SG eqn:ESG.
  remember (scaled mw (q * P)) as SA eqn:ESA.
  remember (scaled mw ((q + 1) * P)) as SN eqn:ESN.
  remember (spacing mw (q * P)) as sp eqn:Esp.
  rewrite Sv. clear Sv ESG Esp.
  destruct (Z.ltb_spec r H); [|destruct (Z.ltb_spec H r); [|destruct (Z.even q)]];
    rewrite <- ?ESA, <- ?ESN; clear ESA ESN;
    destruct Hcase as [Hc|Hc];
    [specialize (Hle Hc) | specialize (Hge Hc) | specialize (Hle Hc)
    | specialize (Hge Hc) | specialize (Hle Hc) | specialize (Hge Hc)
    | specialize (Hle Hc) | specialize (Hge Hc)]; nia.
Qed.
End Width.

(** The magnitude of a finite binary64 pattern is the value [m * 2^e] it
    denotes, counted in units of 2^-1074. *)
Lemma scaled64_of_bits (d : Z) (s : bool) (m : positive) (e : Z) :
  F64.of_bits d = S754_finite s m e ->
  scaled 52 (magnitude64 d) = Zpos m * 2 ^ (e + 1074).
Proof.
  unfold F64.of_bits, IEEE.of_bits, IEEE.decode.
  assert (Hg : 0 <= magnitude64 d).
  { rewrite F64Facts.magnitude64_spec. apply Z.mod_pos_bound. lia. }
  rewrite Scaled.scaled_spec by lia.
  rewrite (F64Facts.magnitude64_fields d).
  pose proof (Z.mod_pos_bound (d / 2 ^ 52) (2 ^ 11) ltac:(lia)) as He.
  pose proof (Z.mod_pos_bound d (2 ^ 52) ltac:(lia)) as Hm.
  rewrite <- F64Facts.expo64_spec in He. rewrite <- F64Facts.mant64_spec in Hm.
  set (ex := IEEE.expo_of 52 11 d) in *. set (mx := IEEE.mant_of 52 d) in *.
  assert (Hd : (ex * 2 ^ 52 + mx) / 2 ^ 52 = ex).
  { symmetry. apply Z.div_unique with (r := mx); lia. }
  assert (Hr : (ex * 2 ^ 52 + mx) mod 2 ^ 52 = mx).
  { symmetry. apply Z.mod_unique with (q := ex); lia. }
  rewrite Hd, Hr. clear Hd Hr.
  change (1 - IEEE.bias 11 - 52) with (-1074). change (IEEE.bias 11) with 1023.
  generalize (IEEE.sign_of 52 11 d) as sx. intros sx. clearbody ex mx.
  destruct (Z.eqb_spec ex 0) as [E0|E0].
  - destruct mx as [|p|p]; intros H; try discriminate H.
    injection H as _ <- <-. change (-1074 + 1074) with 0. lia.
  - destruct (ex =? Z.ones 11); [destruct (mx =? 0); discriminate|].
    destruct (mx + 2 ^ 52) as [|q|q] eqn:E; intros H; try discriminate H.
    injection H as _ <- <-.
    replace (ex - 1023 - 52 + 1074) with (ex - 1) by lia.
    rewrite Z.add_comm, E. reflexivity.
Qed.

(** A binary32 magnitude moved up by 29 bits is the pattern of the same
    magnitude with a 52-bit mantissa. *)
Lemma scaled_shift29 (h : Z) :
  0 <= h -> scaled 52 (h * 2 ^ 29) = 2 ^ 29 * scaled 23 h.
Proof.
  intros Hh. rewrite !Scaled.scaled_spec by lia.
  assert (Hd : h * 2 ^ 29 / 2 ^ 52 = h / 2 ^ 23).
  { change (2 ^ 52) with (2 ^ 29 * 2 ^ 23).
    rewrite <- Z.div_div, Z.div_mul by lia. reflexivity. }
  assert (Hr : (h * 2 ^ 29) mod 2 ^ 52 = h mod 2 ^ 23 * 2 ^ 29).
  { change (2 ^ 52) with (2 ^ 23 * 2 ^ 29). apply Z.mul_mod_distr_r; lia. }
  rewrite Hd, Hr.
  destruct (h / 2 ^ 23 =? 0); [lia|].
  change (2 ^ 52) with (2 ^ 29 * 2 ^ 23). ring.
Qed.

(** Raising the exponent field of a normal pattern by 896 multiplies the
    magnitude by 2^896. *)
Lemma scaled_rebase (m : Z) :
  2 ^ 52 <= m ->
  scaled 52 (m + 0x3800000000000000) = 2 ^ 896 * scaled 52 m.
Proof.
  intros Hm. rewrite !Scaled.scaled_spec by lia.
  change 0x3800000000000000 with (896 * 2 ^ 52).
  rewrite Z.div_add, Z.mod_add by lia.
  assert (1 <= m / 2 ^ 52) by (apply Z.div_le_lower_bound; lia).
  destruct (Z.eqb_spec (m / 2 ^ 52 + 896) 0); [lia|].
  destruct (Z.eqb_spec (m / 2 ^ 52) 0); [lia|].
  replace (m / 2 ^ 52 + 896 - 1) with (896 + (m / 2 ^ 52 - 1)) by lia.
  rewrite Z.pow_add_r by lia. ring.
Qed.

(** Up to the second binade the magnitude is the pattern itself. *)
Lemma scaled_low (r : Z) : 0 <= r <= 2 ^ 23 -> scaled 23 r = r.
Proof.
  intros Hr. rewrite Scaled.scaled_spec by lia.
  destruct (Z.eq_dec r (2 ^ 23)) as [->|Hne]; [reflexivity|].
  rewrite Z.div_small, Z.mod_small by lia. reflexivity.
Qed.

(** No binary32 magnitude, Infinity read as 2^128 included, is closer in
    value to a binary64 magnitude than the one [narrow_round] gives. *)
Lemma narrow_nearest (m g : Z) :
  0 <= m -> 0 <= g <= 0x7f800000 ->
  Z.abs (scaled 52 m - 2 ^ 925 * scaled 23 (narrow_round m))
  <= Z.abs (scaled 52 m - 2 ^ 925 * scaled 23 g).
Proof.
  intros Hm Hg. unfold narrow_round.
  destruct (Z.leb_spec 0x47F0000000000000 m) as [Hhi|Hhi].
  - (* from 2^128 on *)
    pose proof (scaled_mono 52 ltac:(lia) 0x47F0000000000000 m ltac:(lia)) as H1.
    pose proof (scaled_mono 23 ltac:(lia) g 0x7f800000 ltac:(lia)) as H2.
    assert (E : scaled 52 0x47F0000000000000 = 2 ^ 925 * scaled 23 0x7f800000)
      by (vm_compute; reflexivity).
    assert (0 < 2 ^ 925) by (apply Z.pow_pos_nonneg; lia).
    remember (scaled 52 m) as V. remember (scaled 23 g) as G.
    remember (scaled 23 0x7f800000) as T. remember (2 ^ 925) as U.
    clear - H1 H2 E H. nia.
  - destruct (Z.ltb_spec m 0x3810000000000000) as [Hlo|Hlo].
    + (* below 2^-126 *)
      pose proof (Scaled.scaled_lt 52 ltac:(lia) m 0x3810000000000000 ltac:(lia)) as H1.
      pose proof (scaled_mono 52 ltac:(lia) 0 m ltac:(lia)) as H0.
      change (scaled 52 0) with 0 in H0.
      change (scaled 52 0x3810000000000000) with (2 ^ 23 * 2 ^ 925) in H1.
      set (v := scaled 52 m) in *.
      assert (Hr : 0 <= rne_shift 925 v <= 2 ^ 23).
      { pose proof (Rne.rne_mono 925 0 v ltac:(lia) ltac:(lia)) as L.
        pose proof (Rne.rne_mono 925 v (2 ^ 23 * 2 ^ 925) ltac:(lia) ltac:(lia)) as U.
        rewrite RneValue.rne_exact in U by lia.
        change (rne_shift 925 0) with 0 in L. lia. }
      rewrite scaled_low by exact Hr.
      rewrite (Z.mul_comm _ (rne_shift 925 v)), (Z.mul_comm _ (scaled 23 g)).
      apply RneValue.rne_nearest. lia.
    + (* the normal range of binary32 *)
      set (m' := m - 0x3800000000000000).
      assert (Hm' : 2 ^ 52 <= m') by (unfold m'; change (2 ^ 52) with 4503599627370496; lia).
      replace m with (m' + 0x3800000000000000) by (unfold m'; lia).
      rewrite scaled_rebase by exact Hm'.
      replace (m' + 0x3800000000000000 - 0x3800000000000000) with m' by lia.
      pose proof (nearest_of_width 52 ltac:(lia) 29 m' g ltac:(lia) ltac:(lia) ltac:(lia)) as N.
      assert (Hq : 0 <= rne_shift 29 m').
      { pose proof (Rne.rne_mono 29 0 m' ltac:(lia) ltac:(lia)) as L.
        change (rne_shift 29 0) with 0 in L. lia. }
      rewrite !scaled_shift29 in N by lia.
      change (2 ^ 925) with (2 ^ 896 * 2 ^ 29).
      assert (0 < 2 ^ 896) by (apply Z.pow_pos_nonneg; lia).
      remember (scaled 52 m') as V. remember (scaled 23 g) as G.
      remember (scaled 23 (rne_shift 29 m')) as R. remember (2 ^ 896) as U.
      remember (2 ^ 29) as W.
      clear - N H.
      replace (U * V - U * W * R) with (U * (V - W * R)) by ring.
      replace (U * V - U * W * G) with (U * (V - W * G)) by ring.
      rewrite !Z.abs_mul. rewrite (Z.abs_eq U) by lia.
      apply Z.mul_le_mono_nonneg_l; lia.
Qed.

End NarrowValue.

(** * Half precision encoding on all inputs *)

(** X1: below the smallest normal f16 value (magnitude pattern under
    [113 << 23]), [float2half] returns the magnitude counted in units of
    2^-24, rounded to the nearest integer with ties to even, and the sign
    in bit 15; this is what the addition of the magic constant computes. *)
Theorem float2half_subnormal_range (x : Z) :
  is_u32 x -> magnitude x < kF32Magic ->
  float2half x = Z.lor (rne_shift 125 (scaled 23 (magnitude x))) (sign16 x).
Proof. intros Hx Hs. now apply HalfEnc.float2half_small. Qed.

Lemma float2half_subnormal_range_witness :
  float2half 0x33800000 = 0x0001 /\ float2half 0xB3000000 = 0x8000.
Proof.
  split.
  - apply (float2half_subnormal_range 0x33800000);
      [unfold is_u32; lia | reflexivity].
  - apply (float2half_subnormal_range 0xB3000000);
      [unfold is_u32; lia | reflexivity].
Defined.

(** X2: in the normal range of f16 (magnitude pattern from [113 << 23] up
    to, not including, [(127 + 16) << 23]), [float2half] returns the
    pattern rebased by [112 << 23] and divided by 2^13, rounded to nearest
    with ties to even, and the sign in bit 15. *)
Theorem float2half_normal_range (x : Z) :
  is_u32 x -> kF32Magic <= magnitude x < Z.shiftl (127 + 16) 23 ->
  float2half x = Z.lor (rne_shift 13 (magnitude x - 0x38000000)) (sign16 x).
Proof. intros Hx Hr. now apply HalfEncNormal.float2half_normal. Qed.

Lemma float2half_normal_range_witness :
  float2half 0xC0490FDB = 0xC248.
Proof.
  apply (float2half_normal_range 0xC0490FDB);
    [unfold is_u32; lia | split; vm_compute; discriminate || reflexivity].
Defined.

(** X3: for an input below 2^16 in magnitude, no f16 magnitude, Infinity
    read as 2^16 included, is closer in value to the input than the one
    [float2half] returns. *)
Theorem float2half_nearest (x h : Z) :
  is_u32 x -> magnitude x < Z.shiftl (127 + 16) 23 -> 0 <= h <= 0x7c00 ->
  Z.abs (scaled 23 (magnitude x)
         - 2 ^ 125 * scaled 10 (Z.land (float2half x) 0x7fff))
  <= Z.abs (scaled 23 (magnitude x) - 2 ^ 125 * scaled 10 h).
Proof.
  intros Hx Hm Hh.
  destruct (HalfParts.float2half_parts x Hx) as (-> & _ & _).
  apply HalfValue.half_round_nearest; [|assumption].
  pose proof (F32Facts.magnitude_range x).
  change (Z.shiftl (127 + 16) 23) with 0x47800000 in Hm. lia.
Qed.

Lemma float2half_nearest_witness :
  Z.abs (scaled 23 (magnitude 0x3DCCCCCD)
         - 2 ^ 125 * scaled 10 (Z.land (float2half 0x3DCCCCCD) 0x7fff))
  <= Z.abs (scaled 23 (magnitude 0x3DCCCCCD) - 2 ^ 125 * scaled 10 0x2E67).
Proof.
  apply (float2half_nearest 0x3DCCCCCD 0x2E67);
    [unfold is_u32; lia | reflexivity | lia].
Defined.

(** X4: [float2half] keeps the order of magnitudes: of two inputs, the
    second not a NaN, the one with the smaller magnitude gets the smaller
    or the same f16 magnitude. *)
Theorem float2half_monotone (x y : Z) :
  is_u32 x -> is_u32 y -> F32.isnan y = false ->
  magnitude x <= magnitude y ->
  Z.land (float2half x) 0x7fff <= Z.land (float2half y) 0x7fff.
Proof.
  intros Hx Hy Hn Hle.
  destruct (HalfParts.float2half_parts x Hx) as (-> & _ & _).
  destruct (HalfParts.float2half_parts y Hy) as (-> & _ & _).
  pose proof (F32Facts.magnitude_range x).
  unfold F32.isnan in Hn. fold (magnitude y) in Hn. apply Z.ltb_ge in Hn.
  apply HalfRound.half_round_mono; lia.
Qed.

Lemma float2half_monotone_witness :
  Z.land (float2half 0xBF800000) 0x7fff <= Z.land (float2half 0x40000000) 0x7fff.
Proof.
  apply (float2half_monotone 0xBF800000 0x40000000);
    [unfold is_u32; lia | unfold is_u32; lia | reflexivity | vm_compute; discriminate].
Defined.

(** X5: on every 32-bit input the result of [float2half] is a 16-bit
    pattern with the sign bit of the input, and it is a NaN pattern exactly
    when the input is a NaN. *)
Theorem float2half_class (x : Z) :
  is_u32 x ->
  is_u16 (float2half x) /\
  Z.testbit (float2half x) 15 = F32.signbit x /\
  half_isnan (float2half x) = F32.isnan x.
Proof.
  intros Hx. destruct (HalfParts.float2half_parts x Hx) as (Em & Es & Hu).
  repeat split; try assumption; try apply Hu.
  unfold half_isnan, F32.isnan. rewrite Em. fold (magnitude x).
  apply HalfParts.half_round_nan. apply F32Facts.magnitude_range.
Qed.

Lemma float2half_class_witness :
  is_u16 (float2half 0xFFFFFFFF) /\
  Z.testbit (float2half 0xFFFFFFFF) 15 = F32.signbit 0xFFFFFFFF /\
  half_isnan (float2half 0xFFFFFFFF) = F32.isnan 0xFFFFFFFF.
Proof. apply (float2half_class 0xFFFFFFFF). unfold is_u32. lia. Defined.

(** X6: [float2half] returns a zero exactly for the magnitudes up to
    2^-25 (pattern [0x33000000], halfway to the smallest subnormal), and
    Infinity exactly for the magnitudes from 65520 (pattern [0x477FF000])
    up to Infinity. *)
Theorem float2half_zero_and_infinity (x : Z) :
  is_u32 x ->
  (Z.land (float2half x) 0x7fff = 0 <-> magnitude x <= 0x33000000) /\
  (Z.land (float2half x) 0x7fff = 0x7c00
     <-> 0x477FF000 <= magnitude x <= 0x7f800000).
Proof.
  intros Hx. destruct (HalfParts.float2half_parts x Hx) as (-> & _ & _).
  pose proof (F32Facts.magnitude_range x).
  split; [apply HalfRound.half_round_zero | apply HalfRound.half_round_inf]; lia.
Qed.

Lemma float2half_zero_and_infinity_witness :
  (Z.land (float2half 0x33000000) 0x7fff = 0 <-> magnitude 0x33000000 <= 0x33000000) /\
  (Z.land (float2half 0x33000000) 0x7fff = 0x7c00
     <-> 0x477FF000 <= magnitude 0x33000000 <= 0x7f800000).
Proof. apply (float2half_zero_and_infinity 0x33000000). unfold is_u32. lia. Defined.

(** X7: what [float2half] returns is kept by a decoding and a second
    encoding, on every 32-bit input, NaN included. *)
Theorem float2half_idempotent (x : Z) :
  is_u32 x -> float2half (half2float (float2half x)) = float2half x.
Proof.
  intros Hx. destruct (HalfParts.float2half_parts x Hx) as (Em & Es & Hu).
  destruct (HalfDec.facts (float2half x) Hu) as (_ & _ & _ & _ & _ & E & _).
  rewrite E. unfold half_isnan. rewrite Em.
  destruct (Z.ltb_spec 0x7c00 (half_round (magnitude x))) as [Hn|Hn];
    [|reflexivity].
  pose proof (F32Facts.magnitude_range x).
  apply HalfParts.half_round_nan_value in Hn; [|lia].
  rewrite (HalfParts.from_parts (float2half x) Hu), Em, Hn, Es.
  destruct (F32.signbit x); reflexivity.
Qed.

Lemma float2half_idempotent_witness :
  float2half (half2float (float2half 0x7FC12345)) = float2half 0x7FC12345.
Proof. apply (float2half_idempotent 0x7FC12345). unfold is_u32. lia. Defined.

(** * Half precision decoding *)

(** X8: [half2float] grows strictly with the 16-bit pattern read as an
    unsigned number; two different patterns never decode to the same
    binary32 pattern. *)
Theorem half2float_increasing (a b : Z) :
  0 <= a -> a < b -> b < 2 ^ 16 -> half2float a < half2float b.
Proof. apply HalfDec.increasing. Qed.

Lemma half2float_increasing_witness : half2float 0x3BFF < half2float 0x3C00.
Proof. apply (half2float_increasing 0x3BFF 0x3C00); lia. Defined.

(** X9: [half2float] returns a 32-bit pattern with the sign of its input,
    a NaN exactly for a NaN pattern; an exponent field of all ones becomes
    the exponent field of all ones, with the mantissa moved up by 13 bits
    (Infinity stays Infinity, a quiet NaN stays quiet). *)
Theorem half2float_class (p : Z) :
  is_u16 p ->
  is_u32 (half2float p) /\
  F32.signbit (half2float p) = Z.testbit p 15 /\
  F32.isnan (half2float p) = half_isnan p /\
  (half_isfinite p = false ->
     magnitude (half2float p) = 0x7f800000 + Z.land p 0x3ff * 2 ^ 13).
Proof.
  intros Hp. destruct (HalfDec.facts p Hp) as (H1 & H2 & H3 & _ & H5 & _).
  auto.
Qed.

Lemma half2float_class_witness :
  is_u32 (half2float 0xFE01) /\
  F32.signbit (half2float 0xFE01) = Z.testbit 0xFE01 15 /\
  F32.isnan (half2float 0xFE01) = half_isnan 0xFE01 /\
  (half_isfinite 0xFE01 = false ->
     magnitude (half2float 0xFE01) = 0x7f800000 + Z.land 0xFE01 0x3ff * 2 ^ 13).
Proof. apply (half2float_class 0xFE01). unfold is_u16. lia. Defined.

(** X10: decoding a finite f16 pattern is exact: the binary32 pattern
    denotes the same magnitude, subnormal patterns included. *)
Theorem half2float_exact (p : Z) :
  is_u16 p -> half_isfinite p = true ->
  scaled 23 (magnitude (half2float p))
    = 2 ^ 125 * scaled 10 (Z.land p 0x7fff).
Proof.
  intros Hp Hf. destruct (HalfDec.facts p Hp) as (_ & _ & _ & H4 & _).
  now apply H4.
Qed.

Lemma half2float_exact_witness :
  scaled 23 (magnitude (half2float 0x83FF))
    = 2 ^ 125 * scaled 10 (Z.land 0x83FF 0x7fff).
Proof.
  apply (half2float_exact 0x83FF); [unfold is_u16; lia | reflexivity].
Defined.

(** X11: [half2float] keeps the order of magnitudes: of two patterns
    [a < b] of one sign, neither a NaN, the value of [a] is below that of
    [b] when both are positive and above it when both are negative. *)
Theorem half2float_order (a b : Z) :
  is_u16 a -> is_u16 b ->
  half_isnan a = false -> half_isnan b = false ->
  Z.testbit a 15 = Z.testbit b 15 -> a < b ->
  (if Z.testbit a 15
   then SFltb (F32.of_bits (half2float b)) (F32.of_bits (half2float a))
   else SFltb (F32.of_bits (half2float a)) (F32.of_bits (half2float b)))
  = true.
Proof.
  intros Ha Hb Na Nb Hs Hab.
  destruct (HalfDec.facts a Ha) as (Ua & Sa & Ia & _).
  destruct (HalfDec.facts b Hb) as (Ub & Sb & Ib & _).
  pose proof (HalfDec.increasing a b (proj1 Ha) Hab (proj2 Hb)) as Hinc.
  pose proof (F32Facts.sign_magnitude _ Ua) as Ea.
  pose proof (F32Facts.sign_magnitude _ Ub) as Eb.
  assert (Hsb : F32.signbit (half2float a) = F32.signbit (half2float b))
    by congruence.
  rewrite <- Hsb in Eb.
  assert (Hm : magnitude (half2float a) < magnitude (half2float b) <= 0x7f800000).
  { split; [lia|]. rewrite Nb in Ib. unfold F32.isnan in Ib.
    fold (magnitude (half2float b)) in Ib. now apply Z.ltb_ge in Ib. }
  destruct (OrderBits.compare_bits _ _ Hsb Hm) as [C1 C2].
  rewrite <- Sa. unfold SFltb.
  destruct (F32.signbit (half2float a)); [rewrite C2 | rewrite C1]; reflexivity.
Qed.

Lemma half2float_order_witness :
  SFltb (F32.of_bits (half2float 0xBC00)) (F32.of_bits (half2float 0x8001))
  = true.
Proof.
  apply (half2float_order 0x8001 0xBC00);
    (unfold is_u16; lia) || reflexivity.
Defined.

(** * Bfloat16 encoding on all inputs *)

(** X12: on every input that is not a NaN, [float2bfloat] returns the
    magnitude pattern divided by 2^16, rounded to nearest with ties to
    even, and the sign in bit 15. *)
Theorem float2bfloat_rounds (x : Z) :
  is_u32 x -> F32.isnan x = false ->
  float2bfloat x = Z.lor (rne_shift 16 (magnitude x)) (sign16 x).
Proof. intros Hx Hn. now apply BfloatEnc.float2bfloat_rne. Qed.

Lemma float2bfloat_rounds_witness : float2bfloat 0xC0490FDB = 0xC049.
Proof.
  apply (float2bfloat_rounds 0xC0490FDB); [unfold is_u32; lia | reflexivity].
Defined.

(** X13: for an input that is not a NaN, no bf16 magnitude, Infinity read
    as 2^128 included, is closer in value to the input than the one
    [float2bfloat] returns. *)
Theorem float2bfloat_nearest (x h : Z) :
  is_u32 x -> F32.isnan x = false -> 0 <= h <= 0x7f80 ->
  Z.abs (scaled 23 (magnitude x)
         - 2 ^ 16 * scaled 7 (Z.land (float2bfloat x) 0x7fff))
  <= Z.abs (scaled 23 (magnitude x) - 2 ^ 16 * scaled 7 h).
Proof.
  intros Hx Hn Hh.
  destruct (BfloatParts.float2bfloat_parts x Hx) as (Em & _ & _).
  rewrite Hn in Em. rewrite Em.
  pose proof (F32Facts.magnitude_range x).
  pose proof (Rne.rne_bounds 16 (magnitude x) ltac:(lia)).
  assert (0 <= magnitude x / 2 ^ 16) by (apply Z.div_pos; lia).
  rewrite <- !Values.scaled_shift16 by lia.
  apply RneValue.nearest_pattern; lia.
Qed.

Lemma float2bfloat_nearest_witness :
  Z.abs (scaled 23 (magnitude 0x3DCCCCCD)
         - 2 ^ 16 * scaled 7 (Z.land (float2bfloat 0x3DCCCCCD) 0x7fff))
  <= Z.abs (scaled 23 (magnitude 0x3DCCCCCD) - 2 ^ 16 * scaled 7 0x3DCC).
Proof.
  apply (float2bfloat_nearest 0x3DCCCCCD 0x3DCC);
    [unfold is_u32; lia | reflexivity | lia].
Defined.

(** X14: [float2bfloat] keeps the order of magnitudes: of two inputs that
    are not NaN, the one with the smaller magnitude gets the smaller or the
    same bf16 magnitude. *)
Theorem float2bfloat_monotone (x y : Z) :
  is_u32 x -> is_u32 y -> F32.isnan x = false -> F32.isnan y = false ->
  magnitude x <= magnitude y ->
  Z.land (float2bfloat x) 0x7fff <= Z.land (float2bfloat y) 0x7fff.
Proof.
  intros Hx Hy Nx Ny Hle.
  destruct (BfloatParts.float2bfloat_parts x Hx) as (Ex & _ & _).
  destruct (BfloatParts.float2bfloat_parts y Hy) as (Ey & _ & _).
  rewrite Nx in Ex. rewrite Ny in Ey. rewrite Ex, Ey.
  apply Rne.rne_mono; lia.
Qed.

Lemma float2bfloat_monotone_witness :
  Z.land (float2bfloat 0xBF800000) 0x7fff <= Z.land (float2bfloat 0x40000000) 0x7fff.
Proof.
  apply (float2bfloat_monotone 0xBF800000 0x40000000);
    [unfold is_u32; lia | unfold is_u32; lia | reflexivity | reflexivity
    | vm_compute; discriminate].
Defined.

(** X15: on every 32-bit input the result of [float2bfloat] is a 16-bit
    pattern with the sign bit of the input, and it is a NaN pattern exactly
    when the input is a NaN: rounding never turns a number into a NaN. *)
Theorem float2bfloat_class (x : Z) :
  is_u32 x ->
  is_u16 (float2bfloat x) /\
  Z.testbit (float2bfloat x) 15 = F32.signbit x /\
  bfloat_isnan (float2bfloat x) = F32.isnan x.
Proof.
  intros Hx. destruct (BfloatParts.float2bfloat_parts x Hx) as (Em & Es & Hu).
  repeat split; try assumption; try apply Hu.
  unfold bfloat_isnan. rewrite Em.
  destruct (F32.isnan x) eqn:Hn; [reflexivity|].
  destruct (BfloatEnc.float2bfloat_rne x Hx Hn) as [_ B].
  apply Z.ltb_ge. exact B.
Qed.

Lemma float2bfloat_class_witness :
  is_u16 (float2bfloat 0xFF7FFFFF) /\
  Z.testbit (float2bfloat 0xFF7FFFFF) 15 = F32.signbit 0xFF7FFFFF /\
  bfloat_isnan (float2bfloat 0xFF7FFFFF) = F32.isnan 0xFF7FFFFF.
Proof. apply (float2bfloat_class 0xFF7FFFFF). unfold is_u32. lia. Defined.

(** X16: for an input that is not a NaN, [float2bfloat] returns a zero
    exactly for the magnitude patterns up to [0x8000], Infinity exactly
    for the magnitude patterns from [0x7F7F8000] on, and a finite pattern
    exactly for the magnitude patterns below that. *)
Theorem float2bfloat_zero_and_infinity (x : Z) :
  is_u32 x -> F32.isnan x = false ->
  (Z.land (float2bfloat x) 0x7fff = 0 <-> magnitude x <= 0x8000) /\
  (Z.land (float2bfloat x) 0x7fff = 0x7f80 <-> 0x7F7F8000 <= magnitude x) /\
  (bfloat_isfinite (float2bfloat x) = true <-> magnitude x < 0x7F7F8000).
Proof.
  intros Hx Hn. unfold bfloat_isfinite.
  destruct (BfloatParts.float2bfloat_parts x Hx) as (Em & _ & _).
  rewrite Hn in Em. rewrite Em.
  destruct (BfloatEnc.float2bfloat_rne x Hx Hn) as [_ B].
  pose proof (F32Facts.magnitude_range x) as Hr.
  assert (Hq : 0 <= magnitude x / 2 ^ 16) by (apply Z.div_pos; lia).
  pose proof (Rne.rne_bounds 16 (magnitude x) ltac:(lia)) as Hb.
  split; [|split]; split; intros H.
  - destruct (Z_le_gt_dec (magnitude x) 0x8000) as [|Hgt]; [assumption|].
    pose proof (Rne.rne_mono 16 0x8001 (magnitude x) ltac:(lia) ltac:(lia)) as Hm.
    change (rne_shift 16 0x8001) with 1 in Hm. lia.
  - pose proof (Rne.rne_mono 16 (magnitude x) 0x8000 ltac:(lia) ltac:(lia)) as Hm.
    change (rne_shift 16 0x8000) with 0 in Hm. lia.
  - destruct (Z_le_gt_dec 0x7F7F8000 (magnitude x)) as [|Hlt]; [assumption|].
    pose proof (Rne.rne_mono 16 (magnitude x) 0x7F7F7FFF ltac:(lia) ltac:(lia)) as Hm.
    change (rne_shift 16 0x7F7F7FFF) with 0x7F7F in Hm. lia.
  - pose proof (Rne.rne_mono 16 0x7F7F8000 (magnitude x) ltac:(lia) ltac:(lia)) as Hm.
    change (rne_shift 16 0x7F7F8000) with 0x7F80 in Hm. lia.
  - apply Z.ltb_lt in H.
    destruct (Z_le_gt_dec 0x7F7F8000 (magnitude x)) as [Hge|Hlt]; [|lia].
    pose proof (Rne.rne_mono 16 0x7F7F8000 (magnitude x) ltac:(lia) ltac:(lia)) as Hm.
    change (rne_shift 16 0x7F7F8000) with 0x7F80 in Hm. lia.
  - apply Z.ltb_lt.
    pose proof (Rne.rne_mono 16 (magnitude x) 0x7F7F7FFF ltac:(lia) ltac:(lia)) as Hm.
    change (rne_shift 16 0x7F7F7FFF) with 0x7F7F in Hm. lia.
Qed.

Lemma float2bfloat_zero_and_infinity_witness :
  (Z.land (float2bfloat 0x80008000) 0x7fff = 0 <-> magnitude 0x80008000 <= 0x8000) /\
  (Z.land (float2bfloat 0x80008000) 0x7fff = 0x7f80
     <-> 0x7F7F8000 <= magnitude 0x80008000) /\
  (bfloat_isfinite (float2bfloat 0x80008000) = true
     <-> magnitude 0x80008000 < 0x7F7F8000).
Proof.
  apply (float2bfloat_zero_and_infinity 0x80008000);
    [unfold is_u32; lia | reflexivity].
Defined.

(** X17: what [float2bfloat] returns is kept by a decoding and a second
    encoding, on every 32-bit input, NaN included. *)
Theorem float2bfloat_idempotent (x : Z) :
  is_u32 x -> float2bfloat (bfloat2float (float2bfloat x)) = float2bfloat x.
Proof.
  intros Hx. destruct (F32.isnan x) eqn:Hn.
  - rewrite (BfloatParts.nan_cases x Hn).
    destruct (F32.signbit x); reflexivity.
  - destruct (BfloatParts.float2bfloat_parts x Hx) as (Em & _ & Hu).
    apply BfloatParts.roundtrip; [exact Hu|].
    unfold bfloat_isnan. rewrite Em, Hn.
    destruct (BfloatEnc.float2bfloat_rne x Hx Hn) as [_ B].
    apply Z.ltb_ge. exact B.
Qed.

Lemma float2bfloat_idempotent_witness :
  float2bfloat (bfloat2float (float2bfloat 0xFFC12345)) = float2bfloat 0xFFC12345.
Proof. apply (float2bfloat_idempotent 0xFFC12345). unfold is_u32. lia. Defined.

(** * Bfloat16 decoding *)

(** X18: [bfloat2float] returns a 32-bit pattern with the sign of its
    input, a NaN exactly for a NaN pattern, and of the same magnitude: the
    decoding is exact. *)
Theorem bfloat2float_exact (p : Z) :
  is_u16 p ->
  is_u32 (bfloat2float p) /\
  F32.signbit (bfloat2float p) = Z.testbit p 15 /\
  F32.isnan (bfloat2float p) = bfloat_isnan p /\
  scaled 23 (magnitude (bfloat2float p)) = 2 ^ 16 * scaled 7 (Z.land p 0x7fff).
Proof.
  intros Hp. repeat split.
  - apply (BfloatFacts.bfloat2float_range p Hp).
  - apply (BfloatFacts.bfloat2float_range p Hp).
  - now apply BfloatFacts.signbit_bfloat2float.
  - now apply BfloatFacts.isnan_bfloat2float.
  - rewrite BfloatFacts.magnitude_bfloat2float by assumption.
    apply Values.scaled_shift16.
    change 0x7fff with (Z.ones 15). rewrite Z.land_ones by lia.
    apply Z.mod_pos_bound. lia.
Qed.

Lemma bfloat2float_exact_witness :
  is_u32 (bfloat2float 0x8001) /\
  F32.signbit (bfloat2float 0x8001) = Z.testbit 0x8001 15 /\
  F32.isnan (bfloat2float 0x8001) = bfloat_isnan 0x8001 /\
  scaled 23 (magnitude (bfloat2float 0x8001))
    = 2 ^ 16 * scaled 7 (Z.land 0x8001 0x7fff).
Proof. apply (bfloat2float_exact 0x8001). unfold is_u16. lia. Defined.

(** * The double-precision shim on all inputs *)

(** C7: for every double, the double-precision shim returns what the
    single-precision shim returns on the input narrowed to binary32, and
    the narrowing is a rounding of its own.  A NaN narrows to a NaN.  Any
    other double narrows to the binary32 value of the same sign whose
    magnitude is [narrow_round] of its own, which is a nearest one
    (Infinity read as 2^128), so that the shim returns the result of two
    successive roundings to nearest, ties to even: to binary32 and then to
    bf16.  A double exactly halfway between two adjacent normal binary32
    values narrows to the one with the even mantissa.  At the double
    1 + 2^-7 + 2^-8 - 2^-24, which is such a halfway point, the two
    roundings give [0x3F82] where a single rounding to bf16 gives
    [0x3F81]. *)
Theorem truncdfbf2_narrows_first (t : Target) (d : Z) :
  truncdfbf2 t d = truncsfbf2 t (F64.to_float d) /\
  F32.isnan (F64.to_float d) = F64.isnan d /\
  (F64.isnan d = true ->
     truncdfbf2 t d = 0x7FC0 \/ truncdfbf2 t d = 0xFFC0) /\
  (F64.isnan d = false ->
     F32.signbit (F64.to_float d) = F64.signbit d /\
     magnitude (F64.to_float d) = narrow_round (magnitude64 d) /\
     (forall g : Z, 0 <= g <= 0x7f800000 ->
        Z.abs (scaled 52 (magnitude64 d)
               - 2 ^ 925 * scaled 23 (magnitude (F64.to_float d)))
        <= Z.abs (scaled 52 (magnitude64 d) - 2 ^ 925 * scaled 23 g)) /\
     truncdfbf2 t d
       = Z.lor (rne_shift 16 (narrow_round (magnitude64 d)))
               (Z.shiftl (Z.b2z (F64.signbit d)) 15)) /\
  (0x3810000000000000 <= magnitude64 d < 0x47F0000000000000 ->
   magnitude64 d mod 2 ^ 29 = 2 ^ 28 ->
     magnitude (F64.to_float d)
       = nearest_even ((magnitude64 d - 0x3800000000000000) / 2 ^ 29)) /\
  truncdfbf2 t 0x3FF02FFFF0000000 = 0x3F82 /\
  double2bfloat_direct 0x3FF02FFFF0000000 = 0x3F81.
Proof.
  assert (Hg : 0 <= magnitude64 d).
  { rewrite F64Facts.magnitude64_spec. apply Z.mod_pos_bound. lia. }
  split; [reflexivity|]. split; [|split; [|split; [|split; [|split]]]].
  - destruct (F64.isnan d) eqn:Hn.
    + now apply NarrowParts.to_float_nan.
    + now apply NarrowParts.to_float_parts.
  - intros Hn. unfold truncdfbf2. rewrite truncsfbf2_bits.
    rewrite (BfloatParts.nan_cases _ (NarrowParts.to_float_nan d Hn)).
    destruct (F32.signbit _); [right | left]; reflexivity.
  - intros Hn.
    destruct (NarrowParts.to_float_parts d Hn) as (Hu & Hs & Hm & Hf).
    split; [exact Hs | split; [exact Hm | split]].
    + intros g Hgr. rewrite Hm. now apply NarrowValue.narrow_nearest.
    + unfold truncdfbf2. rewrite truncsfbf2_bits.
      destruct (BfloatEnc.float2bfloat_rne _ Hu Hf) as [E _].
      rewrite E, Hm. unfold sign16. now rewrite Hs.
  - intros Hrange Htie.
    assert (Hn : F64.isnan d = false).
    { unfold F64.isnan. fold (magnitude64 d). apply Z.ltb_ge. lia. }
    destruct (NarrowParts.to_float_parts d Hn) as (_ & _ & Hm & _).
    rewrite Hm. unfold narrow_round.
    destruct (Z.leb_spec 0x47F0000000000000 (magnitude64 d)); [lia|].
    destruct (Z.ltb_spec (magnitude64 d) 0x3810000000000000); [lia|].
    rewrite Rne.rne_spec by lia.
    assert (Er : (magnitude64 d - 0x3800000000000000) mod 2 ^ 29 = 2 ^ 28).
    { replace (magnitude64 d - 0x3800000000000000)
        with (magnitude64 d + (- 7516192768) * 2 ^ 29) by lia.
      now rewrite Z.mod_add by lia. }
    rewrite Er. change (2 ^ (29 - 1)) with (2 ^ 28).
    now rewrite Z.ltb_irrefl.
  - unfold truncdfbf2. rewrite truncsfbf2_bits. vm_compute. reflexivity.
  - vm_compute. reflexivity.
Qed.

Lemma truncdfbf2_narrows_first_witness :
  magnitude (F64.to_float 0x3FF02FFFF0000000) = 0x3F818000 /\
  truncdfbf2 X86_64 0x3FF02FFFF0000000 = 0x3F82 /\
  truncdfbf2 OtherTarget 0xBFF02FFFF0000000 = 0xBF82 /\
  (truncdfbf2 X86_64 0x7FF0000000000001 = 0x7FC0 \/
   truncdfbf2 X86_64 0x7FF0000000000001 = 0xFFC0).
Proof.
  split; [|split; [|split]].
  - apply (proj1 (proj2 (proj2 (proj2 (proj2
             (truncdfbf2_narrows_first X86_64 0x3FF02FFFF0000000))))));
      [split; [vm_compute; discriminate | reflexivity] | reflexivity].
  - apply (proj2 (proj2 (proj2 (proj1 (proj2 (proj2 (proj2
             (truncdfbf2_narrows_first X86_64 0x3FF02FFFF0000000)))) eq_refl)))).
  - apply (proj2 (proj2 (proj2 (proj1 (proj2 (proj2 (proj2
             (truncdfbf2_narrows_first OtherTarget 0xBFF02FFFF0000000)))) eq_refl)))).
  - apply (proj1 (proj2 (proj2
             (truncdfbf2_narrows_first X86_64 0x7FF0000000000001)))).
    reflexivity.
Defined.

(** * The carrier of the truncation shims *)

(** X19: on both targets [__truncsfbf2] returns a carrier whose bits are
    the 16 bits of [float2bfloat] and nothing else: the upper bytes of the
    x86-64 [float] carrier are zero. *)
Theorem truncsfbf2_carrier (t : Target) (f : Z) :
  is_u32 f ->
  truncsfbf2 t f = float2bfloat f /\ is_u16 (truncsfbf2 t f).
Proof.
  intros Hf. rewrite truncsfbf2_bits. split; [reflexivity|].
  apply (BfloatParts.float2bfloat_parts f Hf).
Qed.

Lemma truncsfbf2_carrier_witness :
  truncsfbf2 X86_64 0x3F808000 = float2bfloat 0x3F808000 /\
  is_u16 (truncsfbf2 X86_64 0x3F808000).
Proof. apply (truncsfbf2_carrier X86_64 0x3F808000). unfold is_u32. lia. Defined.

(** * Image selection of a kernel bundle *)

Import KernelBundle.

(** X20: the image [select_image_for_kernel] returns is one of the images
    of the bundle and holds the kernel; a bundle without such an image
    gives [nullptr]. *)
Theorem select_image_is_candidate (images : list device_image)
    (KernelID : kernel_id) :
  (forall img, select_image_for_kernel images KernelID = Some img ->
     In img images /\ has_kernel img KernelID = true) /\
  ((forall i, In i images -> has_kernel i KernelID = false) ->
   select_image_for_kernel images KernelID = None).
Proof.
  assert (H : forall img, select_image_for_kernel images KernelID = Some img ->
                In img images /\ has_kernel img KernelID = true).
  { unfold select_image_for_kernel.
    apply (KernelBundleFacts.select_from_origin KernelID
             (fun i => In i images /\ has_kernel i KernelID = true));
      cbn; try discriminate; auto. }
  split; [exact H|]. intros Hnone.
  destruct (select_image_for_kernel images KernelID) as [img|] eqn:E;
    [|reflexivity].
  destruct (H img eq_refl) as [Hin Hk]. rewrite (Hnone img Hin) in Hk.
  discriminate.
Qed.

Lemma select_image_is_candidate_witness :
  In example_replaced [example_original; example_replaced] /\
  has_kernel example_replaced 1%nat = false /\
  select_image_for_kernel [example_original; example_replaced] 1%nat = None.
Proof.
  split; [|split].
  - right. now left.
  - reflexivity.
  - apply (proj2 (select_image_is_candidate
                    [example_original; example_replaced] 1%nat)).
    intros i [<- | [<- | []]]; reflexivity.
Defined.

(** X21: an image whose specialization constants were replaced by their
    defaults is returned only if it has no native support and no image
    holding the kernel has a specialization constant set. *)
Theorem select_image_replaced (images : list device_image)
    (KernelID : kernel_id) (img : device_image) :
  select_image_for_kernel images KernelID = Some img ->
  specialization_constants_replaced_with_default img = true ->
  all_specialization_constant_native img = false /\
  forall c, In c images -> has_kernel c KernelID = true ->
            is_any_specialization_constant_set c = false.
Proof.
  intros Hsel Hrep.
  destruct (KernelBundleFacts.select_from_replaced KernelID images initial
              KernelBundleFacts.coherent_initial img Hsel Hrep) as (Hn & _ & Hall).
  split; assumption.
Qed.

Lemma select_image_replaced_witness :
  all_specialization_constant_native example_replaced = false /\
  forall c, In c [example_replaced] -> has_kernel c 0%nat = true ->
            is_any_specialization_constant_set c = false.
Proof.
  apply (select_image_replaced [example_replaced] 0%nat example_replaced);
    reflexivity.
Defined.

(** X22: when an image holding the kernel keeps its specialization
    constants (they are not replaced by defaults), the function returns an
    image, not [nullptr]. *)
Theorem select_image_found (images : list device_image)
    (KernelID : kernel_id) (c : device_image) :
  In c images -> has_kernel c KernelID = true ->
  specialization_constants_replaced_with_default c = false ->
  select_image_for_kernel images KernelID <> None.
Proof.
  intros Hin Hk Hr.
  apply (KernelBundleFacts.select_from_some KernelID images initial
           KernelBundleFacts.coherent_initial).
  right. exists c. auto.
Qed.

Lemma select_image_found_witness :
  select_image_for_kernel [example_replaced; example_original] 0%nat <> None.
Proof.
  apply (select_image_found [example_replaced; example_original] 0%nat
           example_original); [right; now left | reflexivity | reflexivity].
Defined.

(** X23: when no image holding the kernel has a specialization constant
    set, the function returns the last such image with replaced constants
    if that one has no native support, and otherwise the last such image
    with its constants not replaced. *)
Theorem select_image_without_constants (images : list device_image)
    (KernelID : kernel_id) :
  (forall c, In c images -> has_kernel c KernelID = true ->
             is_any_specialization_constant_set c = false) ->
  let R := last_candidate KernelID
             specialization_constants_replaced_with_default images in
  let O := last_candidate KernelID
             (fun i => negb (specialization_constants_replaced_with_default i))
             images in
  select_image_for_kernel images KernelID
    = if is_not_native R then R else O.
Proof.
  intros Hall. cbv zeta. unfold select_image_for_kernel.
  etransitivity;
    [apply (KernelBundleFacts.select_from_unset KernelID images initial
              KernelBundleFacts.coherent_initial eq_refl Hall)|].
  cbn. unfold or_else.
  destruct (last_candidate KernelID _ images);
    destruct (last_candidate KernelID _ images); reflexivity.
Qed.

Lemma select_image_without_constants_witness :
  select_image_for_kernel [example_replaced; example_replaced] 0%nat
    = Some example_replaced.
Proof.
  apply (select_image_without_constants [example_replaced; example_replaced]
           0%nat).
  intros c [<- | [<- | []]]; reflexivity.
Defined.
